(** * accio: template markup front end

    A shallow embedding of the parts of the accio generator that turn the
    tags of one template file into a [Markup] document
    (generator/template/markup.go), of the tokenizer that feeds it, and of
    the path helper the file-tree runner uses to keep generated files below
    the destination directory. *)

From Stdlib Require Import ZArith Ascii String List Lia.
From stdpp Require Import base decidable option list strings gmap.

Local Open Scope Z_scope.
Local Open Scope string_scope.
Local Open Scope list_scope.

(** ** Tags, as the structural parser hands them over *)

(** Modelled from the spec: the declaration of [markup.TagNode] (package
    markup) is not part of the sources at hand. A tag has a name, its
    attributes in source order (duplicates allowed), and an optional body;
    a body has raw content and is either inline or multi-line. The field
    names are the ones generator/template/markup.go reads. *)
Record Body := mkBody { Content : string; Inline : bool }.

Record Attr := mkAttr { AttrName : string; AttrValue : string }.

Record TagNode := mkTag {
  Name : string;
  Attributes : list Attr;
  TagBody : option Body
}.

Module Template.

(** *** Constants of markup.go *)

Definition tagFilename : string := "filename".
Definition tagSkip : string := "skipif".
Definition tagTemplate : string := "template".
Definition tagPartial : string := "partial".
Definition tagVariable : string := "variable".
Definition attrName : string := "name".

(** [errSkipTag] is the only error value the assembler produces. *)
Inductive error := errSkipTag.

(** [vars] holds variables in their original order; Go's [[2]string] is a
    pair. *)
Abbreviation vars := (list (string * string)).

Record Markup := mkMarkup {
  Filename : string;
  Skip : string;
  MBody : string;
  Vars : vars;
  Partials : gmap string string
}.

(** The calls to [log.Printf]: one constructor per format string, carrying
    the arguments of the call. *)
Inductive LogEntry :=
| LogPartialExists (name : string)
| LogVarExists (name : string)
| LogMissingBody (tag name : string)
| LogMissingAttr (tag attr : string).

(** The assembler state: the document under construction and the log
    written so far, oldest entry first. *)
Definition state : Type := Markup * list LogEntry.

(** [vars.find]: index of the first entry whose name is [key], or -1. *)
Fixpoint find_from (v : vars) (key : string) (i : Z) : Z :=
  match v with
  | [] => -1
  | val :: rest => if decide (val.1 = key) then i else find_from rest key (i + 1)
  end.

Definition find (v : vars) (key : string) : Z := find_from v key 0.

Definition newMarkup : Markup :=
  {| Filename := ""; Skip := ""; MBody := ""; Vars := []; Partials := ∅ |}.

Definition setPartial (name val : string) (s : state) : state :=
  let '(m, log) := s in
  let log' := match Partials m !! name with
              | Some _ => log ++ [LogPartialExists name]
              | None => log
              end in
  ({| Filename := Filename m; Skip := Skip m; MBody := MBody m;
      Vars := Vars m; Partials := <[name := val]> (Partials m) |}, log').

Definition setVars (m : Markup) (v : vars) : Markup :=
  {| Filename := Filename m; Skip := Skip m; MBody := MBody m;
     Vars := v; Partials := Partials m |}.

Definition setVar (name val : string) (s : state) : state :=
  let '(m, log) := s in
  let i := find (Vars m) name in
  if decide (i ≠ -1) then
    (setVars m (<[Z.to_nat i := (name, val)]> (Vars m)), log ++ [LogVarExists name])
  else
    (setVars m (Vars m ++ [(name, val)]), log).

(** [parseTagNameAttr]: the loop keeps the value of the last attribute
    called [name]; an empty result is reported and turned into
    [errSkipTag]. *)
Definition nameAttrLoop (attrs : list Attr) : string :=
  foldl (λ name attr, if decide (AttrName attr = attrName) then AttrValue attr else name)
        "" attrs.

Definition parseTagNameAttr (tag : TagNode) (log : list LogEntry)
  : (string * option error) * list LogEntry :=
  let name := nameAttrLoop (Attributes tag) in
  if decide (String.length name = 0%nat) then
    (("", Some errSkipTag), log ++ [LogMissingAttr (Name tag) attrName])
  else ((name, None), log).

Definition parseBody (tag : TagNode) : string :=
  match TagBody tag with
  | None => ""
  | Some b => Content b
  end.

Section Assembler.

(** [wrapInlineScript] is defined in a file of the package that is not at
    hand; the assembler only passes inline content through it. *)
Variable wrapInlineScript : string → string.

Definition parseScriptBody (tag : TagNode) : string :=
  match TagBody tag with
  | None => ""
  | Some b => if Inline b then wrapInlineScript (Content b) else Content b
  end.

(** One iteration of the loop of [parse]. *)
Definition parseTag (s : state) (tag : TagNode) : state :=
  let '(m, log) := s in
  if decide (Name tag = tagFilename) then
    ({| Filename := parseScriptBody tag; Skip := Skip m; MBody := MBody m;
        Vars := Vars m; Partials := Partials m |}, log)
  else if decide (Name tag = tagSkip) then
    ({| Filename := Filename m; Skip := parseScriptBody tag; MBody := MBody m;
        Vars := Vars m; Partials := Partials m |}, log)
  else if decide (Name tag = tagTemplate) then
    ({| Filename := Filename m; Skip := Skip m; MBody := parseBody tag;
        Vars := Vars m; Partials := Partials m |}, log)
  else if decide (Name tag = tagPartial ∨ Name tag = tagVariable) then
    let '((name, err), log1) := parseTagNameAttr tag log in
    match err with
    | Some errSkipTag => (m, log1)
    | None =>
      match TagBody tag with
      | None => (m, log1 ++ [LogMissingBody (Name tag) name])
      | Some _ =>
        if decide (Name tag = tagPartial) then setPartial name (parseBody tag) (m, log1)
        else if decide (Name tag = tagVariable) then setVar name (parseScriptBody tag) (m, log1)
        else (m, log1)
      end
    end
  else (m, log).

(** [parse] with the log it leaves behind. *)
Definition parseFrom (s : state) (tags : list TagNode) : state :=
  foldl parseTag s tags.

Definition parseLogged (tags : list TagNode) : state :=
  parseFrom (newMarkup, []) tags.

Definition parse (tags : list TagNode) : Markup := (parseLogged tags).1.

End Assembler.

End Template.

(** ** Bytes and lines *)

(** Go strings are byte sequences; the scanners below walk them as lists of
    characters. *)
Definition chars : Type := list ascii.

Definition tab : ascii := Eval cbv in ascii_of_nat 9.
Definition newline : ascii := Eval cbv in ascii_of_nat 10.
Definition dquote : ascii := Eval cbv in ascii_of_nat 34.
Definition squote : ascii := Eval cbv in ascii_of_nat 39.

Definition chars_of (s : string) : chars := list_ascii_of_string s.
Definition text_of (l : chars) : string := string_of_list_ascii l.

(** [strings.Split(s, sep)] for a one-byte separator: the pieces between the
    separators, [[""]] for the empty string. *)
Fixpoint split_on (sep : ascii) (s : chars) : list chars :=
  match s with
  | [] => [[]]
  | c :: s' =>
    if Ascii.eqb c sep then [] :: split_on sep s'
    else match split_on sep s' with
         | [] => [[c]]
         | piece :: pieces => (c :: piece) :: pieces
         end
  end.

(** [strings.Join(parts, sep)] for a one-byte separator. *)
Fixpoint join_with (sep : ascii) (parts : list chars) : chars :=
  match parts with
  | [] => []
  | [p] => p
  | p :: ps => p ++ sep :: join_with sep ps
  end.

(** The longest run of characters satisfying [p] at the front of [s], and
    what follows it. *)
Fixpoint span (p : ascii → bool) (s : chars) : chars * chars :=
  match s with
  | [] => ([], [])
  | c :: s' => if p c then let '(run, rest) := span p s' in (c :: run, rest)
               else ([], s)
  end.

(** [strings.HasPrefix]. *)
Fixpoint hasPrefix (pre s : chars) : bool :=
  match pre, s with
  | [], _ => true
  | _ :: _, [] => false
  | a :: pre', c :: s' => Ascii.eqb a c && hasPrefix pre' s'
  end.

Module Lexer.

(** *** Tokens *)

(** Modelled from the spec: the tokenizer of package markup is not part of
    the sources at hand, only its test table [lexTests] is. The token kinds
    and constructor names are the ones of the test file; the scanner
    follows the tokenizer section of the specification. Byte offset and
    line number of a token are left out: the specification does not fix
    their values and the tests compare kind and text only. *)
Inductive tokenType :=
| tokenError | tokenEOF | tokenSpace | tokenNewline | tokenIdentifier
| tokenAttrDeclare | tokenAssign | tokenString
| tokenLeftDelim | tokenRightDelim | tokenBody.

Record token := mkToken { typ : tokenType; val : string }.

Global Instance tokenType_eq_dec : EqDecision tokenType.
Proof. solve_decision. Defined.

Global Instance token_eq_dec : EqDecision token.
Proof. solve_decision. Defined.

Definition tEOF : token := mkToken tokenEOF "".
Definition tAssign : token := mkToken tokenAssign "=".
Definition tAttrDeclare : token := mkToken tokenAttrDeclare "-".
Definition tSpace : token := mkToken tokenSpace " ".
Definition tNewline : token := mkToken tokenNewline (text_of [newline]).
Definition tBodyLeft : token := mkToken tokenLeftDelim "<<".
Definition tBodyRight : token := mkToken tokenRightDelim ">>".

(** *** Character classes *)

Definition isSpace (c : ascii) : bool := Ascii.eqb c " " || Ascii.eqb c tab.

Definition isEndOfLine (c : ascii) : bool := Ascii.eqb c newline.

Definition isDash (c : ascii) : bool := Ascii.eqb c "-".

(** Modelled from the spec: "word characters" are the letters, the digits
    and the underscore. *)
Definition isWordChar (c : ascii) : bool :=
  let n := N_of_ascii c in
  ((48 <=? n) && (n <=? 57) || (65 <=? n) && (n <=? 90)
   || (97 <=? n) && (n <=? 122) || (n =? 95))%N.

Definition isIdentChar (c : ascii) : bool := isWordChar c || isDash c.

(** *** Error messages *)

Definition hexDigit (n : N) : ascii :=
  (if n <? 10 then ascii_of_N (48 + n) else ascii_of_N (55 + n))%N.

(** The code point of a character the way the messages print it:
    [U+002D '-']. *)
Definition codepoint (c : ascii) : string :=
  let n := N_of_ascii c in
  ("U+00" ++ String (hexDigit (n / 16)) (String (hexDigit (n mod 16))
     (" " ++ String squote (String c (String squote EmptyString)))))%string.

Definition errInvalidChar (c : ascii) : string :=
  ("invalid character " ++ codepoint c)%string.

Definition errInvalidCharInIdent (c : ascii) : string :=
  ("invalid character " ++ codepoint c
   ++ " within tag identifier, space or newline expected")%string.

Definition errTrailingDash : string :=
  ("invalid character " ++ codepoint "-" ++ " at the end of the identifier")%string.

Definition errMisplaced (c : ascii) : string :=
  ("misplaced character " ++ codepoint c
   ++ ", tag identifier must start on the newline")%string.

(** The specification names no message for input that ends inside an
    attribute or a body; the model halts there with this one. *)
Definition errUnexpectedEOF : string := "unexpected end of input".

(** *** Scanners *)

(** A scanner either yields a value and the input that is left, or fails
    with the message of the error token. *)
Inductive scanned (A : Type) :=
| Scanned (a : A) (rest : chars)
| Failed (msg : string).
Arguments Scanned {A} a rest.
Arguments Failed {A} msg.

(** The configured delimiters, with the fixed defaults for an empty
    configuration. *)
Definition leftDelim (left : string) : chars :=
  if decide (left = "") then chars_of "<<" else chars_of left.

Definition rightDelim (right : string) : chars :=
  if decide (right = "") then chars_of ">>" else chars_of right.

Section Scan.

Variables left right : chars.

(** What may follow an identifier: space, newline, [=], the end of the
    input, or the open delimiter. *)
Definition isTerminator (s : chars) : bool :=
  match s with
  | [] => true
  | c :: _ => isSpace c || isEndOfLine c || Ascii.eqb c "=" || hasPrefix left s
  end.

Definition endsWithDash (ident : chars) : bool :=
  match last ident with
  | Some c => isDash c
  | None => false
  end.

(** Modelled from the spec: the identifier scan after its first character,
    which is missing with the tokenizer. [ident] is what has been accepted
    so far: word characters and dashes are accepted; at a terminator the
    identifier ends, and is rejected when its last character is a dash; any
    other character is invalid within the identifier. *)
Fixpoint scanIdentRest (ident : chars) (s : chars) : scanned chars :=
  match s with
  | [] => if endsWithDash ident then Failed errTrailingDash else Scanned ident []
  | c :: s' =>
    if isIdentChar c then scanIdentRest (ident ++ [c]) s'
    else if isTerminator s then
      if endsWithDash ident then Failed errTrailingDash else Scanned ident s
    else Failed (errInvalidCharInIdent c)
  end.

(** Modelled from the spec: the identifier scan of the missing tokenizer,
    for tag names and attribute names alike. A first character that is not
    a word character, the dash included, is an invalid character. *)
Definition scanIdentifier (s : chars) : scanned chars :=
  match s with
  | [] => Failed errUnexpectedEOF
  | c :: s' => if isWordChar c then scanIdentRest [c] s' else Failed (errInvalidChar c)
  end.

(** The string literal: an opening quote, and everything up to the next
    quote; the token text keeps both quotes. *)
Fixpoint scanStringRest (lit : chars) (s : chars) : scanned chars :=
  match s with
  | [] => Failed errUnexpectedEOF
  | c :: s' => if Ascii.eqb c dquote then Scanned (lit ++ [c]) s'
               else scanStringRest (lit ++ [c]) s'
  end.

Definition scanString (s : chars) : scanned chars :=
  match s with
  | [] => Failed errUnexpectedEOF
  | c :: s' => if Ascii.eqb c dquote then scanStringRest [c] s'
               else Failed (errInvalidChar c)
  end.

(** Trailing spaces and tabs of one line, discarded. *)
Definition trimRight (line : chars) : chars :=
  reverse (span isSpace (reverse line)).2.

(** The body text gathered so far in multi-line mode, one more line
    added. *)
Definition addLine (body : option chars) (line : chars) : chars :=
  match body with
  | None => line
  | Some b => b ++ newline :: line
  end.

(** Modelled from the spec: the multi-line body scan of the missing
    tokenizer. Lines are gathered until one is, its trailing spaces
    and tabs apart, the close delimiter. [body] holds the lines gathered so
    far, [line] the current line up to the cursor. The result is the
    gathered text ([None] when the body has no line at all) and the input
    from the end of the closing line on. *)
Fixpoint scanMultiline (body : option chars) (line : chars) (s : chars)
  : scanned (option chars) :=
  match s with
  | [] => if decide (trimRight line = right) then Scanned body []
          else Failed errUnexpectedEOF
  | c :: s' =>
    if isEndOfLine c then
      if decide (trimRight line = right) then Scanned body s
      else scanMultiline (Some (addLine body line)) [] s'
    else scanMultiline body (line ++ [c]) s'
  end.

(** Modelled from the spec: the inline body scan of the missing tokenizer,
    everything up to the first occurrence of the close delimiter. *)
Fixpoint scanInline (body : chars) (s : chars) : scanned chars :=
  if hasPrefix right s then Scanned body (drop (length right) s)
  else match s with
       | [] => Failed errUnexpectedEOF
       | c :: s' => scanInline (body ++ [c]) s'
       end.

End Scan.

(** *** State functions *)

(** The two contexts of the tokenizer: at the start of a line, and inside
    a tag after its name. *)
Inductive stateFn := lexLineStart | lexInsideTag.

(** What one state function does: the tokens it emits, and the state and
    input to go on with; [None] after a terminal token. *)
Definition outcome : Type := list token * option (stateFn * chars).

Definition tError (msg : string) : token := mkToken tokenError msg.

Definition halt (toks : list token) (msg : string) : outcome :=
  (toks ++ [tError msg], None).

(** A comment runs through the end of its line, the newline included. *)
Definition skipComment (s : chars) : chars :=
  match (span (λ c, negb (isEndOfLine c)) s).2 with
  | [] => []
  | _ :: rest => rest
  end.

Section States.

Variables left right : chars.

(** After the close delimiter: spaces and tabs are dropped, then the
    newline or the end of the input ends the tag. *)
Definition lexAfterBody (toks : list token) (s : chars) : outcome :=
  match (span isSpace s).2 with
  | [] => (toks ++ [tEOF], None)
  | c :: rest =>
    if isEndOfLine c then (toks ++ [tNewline], Some (lexLineStart, rest))
    else halt toks (errInvalidChar c)
  end.

Definition bodyTokens (body : option chars) : list token :=
  match body with
  | None => []
  | Some b => [mkToken tokenBody (text_of b); tNewline]
  end.

(** Body content, entered right after the open delimiter: a newline after
    optional spaces and tabs selects multi-line mode, anything else inline
    mode, whose text starts right after the open delimiter. *)
Definition lexBody (s : chars) : outcome :=
  let tLeft := mkToken tokenLeftDelim (text_of left) in
  let tRight := mkToken tokenRightDelim (text_of right) in
  let inline :=
    match scanInline right [] s with
    | Scanned body rest =>
      lexAfterBody (tLeft :: match body with
                             | [] => []
                             | _ :: _ => [mkToken tokenBody (text_of body)]
                             end ++ [tRight]) rest
    | Failed msg => halt [tLeft] msg
    end in
  match (span isSpace s).2 with
  | c :: rest =>
    if isEndOfLine c then
      match scanMultiline right None [] rest with
      | Scanned body rest' =>
        lexAfterBody (tLeft :: tNewline :: bodyTokens body ++ [tRight]) rest'
      | Failed msg => halt [tLeft; tNewline] msg
      end
    else inline
  | [] => inline
  end.

(** An attribute, entered right after its dash: name, [=], string
    literal. *)
Definition lexAttr (s : chars) : outcome :=
  match scanIdentifier left s with
  | Failed msg => halt [tAttrDeclare] msg
  | Scanned name s1 =>
    let tName := mkToken tokenIdentifier (text_of name) in
    match s1 with
    | [] => halt [tAttrDeclare; tName] errUnexpectedEOF
    | c :: s2 =>
      if Ascii.eqb c "=" then
        match scanString s2 with
        | Scanned lit s3 =>
          ([tAttrDeclare; tName; tAssign; mkToken tokenString (text_of lit)],
           Some (lexInsideTag, s3))
        | Failed msg => halt [tAttrDeclare; tName; tAssign] msg
        end
      else halt [tAttrDeclare; tName] (errInvalidChar c)
    end
  end.

(** Modelled from the spec: the two state functions of the missing
    tokenizer. At the start of a line a [#] starts a comment, spaces and
    tabs before a newline or the end of the input are dropped, before
    anything else they make the character misplaced, and any other
    character starts the tag name. Inside a tag a run of spaces and tabs is
    one token, a newline ends the tag, a dash starts an attribute, the open
    delimiter starts the body, and any other character is invalid. *)
Definition step (st : stateFn) (s : chars) : outcome :=
  match st with
  | lexLineStart =>
    match s with
    | [] => ([tEOF], None)
    | c :: s' =>
      if Ascii.eqb c "#" then ([], Some (lexLineStart, skipComment s'))
      else
        let '(blanks, s1) := span isSpace s in
        match s1 with
        | [] => ([tEOF], None)
        | d :: s2 =>
          if isEndOfLine d then ([], Some (lexLineStart, s2))
          else match blanks with
               | _ :: _ => halt [] (errMisplaced d)
               | [] =>
                 match scanIdentifier left s1 with
                 | Scanned name rest =>
                   ([mkToken tokenIdentifier (text_of name)], Some (lexInsideTag, rest))
                 | Failed msg => halt [] msg
                 end
               end
        end
    end
  | lexInsideTag =>
    match s with
    | [] => ([tEOF], None)
    | c :: s' =>
      if isSpace c then
        let '(blanks, rest) := span isSpace s in
        ([mkToken tokenSpace (text_of blanks)], Some (lexInsideTag, rest))
      else if isEndOfLine c then ([tNewline], Some (lexLineStart, s'))
      else if isDash c then lexAttr s'
      else if hasPrefix left s then lexBody (drop (length left) s)
      else halt [] (errInvalidChar c)
    end
  end.

(** The state functions run until one of them ends the scan. Every call
    that goes on has consumed input, so [fuel] beyond the length of the
    input is never used up. *)
Fixpoint run (fuel : nat) (st : stateFn) (s : chars) : list token :=
  match fuel with
  | O => []
  | S fuel' =>
    let '(toks, next) := step st s in
    toks ++ match next with
            | None => []
            | Some (st', s') => run fuel' st' s'
            end
  end.

End States.

(** Modelled from the spec: [collect] of the test file calls the missing
    tokenizer until it has the terminal token; here it is the run of the
    state functions from the start of the first line. *)
Definition collect (input left right : string) : list token :=
  let s := chars_of input in
  run (leftDelim left) (rightDelim right) (S (length s)) lexLineStart s.

End Lexer.

(** ** Paths *)

(** Go's path/filepath for Unix, where a path is cleaned element by
    element: empty elements and [.] are dropped, [..] removes the element
    before it, is dropped at the root, and is kept at the front of a
    relative path. *)
Module filepath.

Definition Separator : ascii := "/".

Definition dot : chars := chars_of ".".
Definition dotdot : chars := chars_of "..".

Definition isRooted (path : chars) : bool :=
  match path with
  | c :: _ => Ascii.eqb c Separator
  | [] => false
  end.

(** [out] is the cleaned path so far, as its elements. *)
Definition cleanStep (rooted : bool) (out : list chars) (elem : chars) : list chars :=
  if decide (elem = []) then out
  else if decide (elem = dot) then out
  else if decide (elem = dotdot) then
    match last out with
    | Some e =>
      if decide (e = dotdot) then (if rooted then out else out ++ [dotdot])
      else removelast out
    | None => if rooted then out else out ++ [dotdot]
    end
  else out ++ [elem].

Definition cleanElems (path : chars) : list chars :=
  foldl (cleanStep (isRooted path)) [] (split_on Separator path).

Definition Clean (path : chars) : chars :=
  if decide (path = []) then dot
  else
    let out := cleanElems path in
    if isRooted path then Separator :: join_with Separator out
    else match out with
         | [] => dot
         | _ :: _ => join_with Separator out
         end.

(** [Join] ignores empty elements in front and cleans the rest joined by
    separators; all elements empty gives the empty string. *)
Fixpoint Join (elem : list chars) : chars :=
  match elem with
  | [] => []
  | e :: rest => if decide (e = []) then Join rest
                 else Clean (join_with Separator elem)
  end.

End filepath.

Module Generator.

Import filepath.

(** The loop of [joinWithinRoot]: [range] is what is left of the slice the
    [for ... range] statement was started on, [parts] the variable the body
    re-slices. *)
Fixpoint stripLoop (range parts : list chars) : list chars :=
  match range with
  | [] => parts
  | part :: range' =>
    if decide (part ≠ dotdot) then parts
    else stripLoop range' (tail parts)
  end.

Definition joinWithinRoot (root relpath : chars) : chars :=
  let sep := Separator in
  let parts := split_on sep (Clean relpath) in
  let parts := stripLoop parts parts in
  Join [root; join_with sep parts].

End Generator.

(** ** The registry of repositories *)

Module Generators.

Section Repositories.

(** [Repository] is declared in a file of the package that is not at hand;
    the registry reads its [Path] field only. A repository is passed by
    pointer; the model takes the repository pointed to. *)
Context {Repository : Type} (Path : Repository → string).

(** [os.PathError], with the message of its [Err]. *)
Record PathError := mkPathError { Op : string; ErrPath : string; Err : string }.

Record Registry := mkRegistry { Repos : gmap string Repository }.

Definition NewRegistry : Registry := {| Repos := ∅ |}.

(** [AddRepository] adds a repository to the registry: the registry after
    the call, and the error it returns. *)
Definition AddRepository (r : Registry) (repo : Repository)
  : Registry * option PathError :=
  match Repos r !! Path repo with
  | Some _ =>
    (r, Some {| Op := "add repository"; ErrPath := Path repo;
                Err := "already exists" |})
  | None => ({| Repos := <[Path repo := repo]> (Repos r) |}, None)
  end.

End Repositories.

End Generators.

(** ** The runner's helpers *)

(** More of Go's path/filepath for Unix. *)
Module filepathx.

Import filepath.

Definition isSeparator (c : ascii) : bool := Ascii.eqb c Separator.

(** [path] without the characters after its last separator. *)
Definition uptoLastSeparator (path : chars) : chars :=
  reverse (span (λ c, negb (isSeparator c)) (reverse path)).2.

(** [Dir]: all but the last element of [path], cleaned. *)
Definition Dir (path : chars) : chars := Clean (uptoLastSeparator path).

(** [Base]: the last element of [path]; trailing separators are removed
    first, the empty path gives [.] and a path of separators gives the
    separator. *)
Definition Base (path : chars) : chars :=
  match path with
  | [] => dot
  | _ :: _ =>
    let stripped := reverse (span isSeparator (reverse path)).2 in
    match reverse (span (λ c, negb (isSeparator c)) (reverse stripped)).1 with
    | [] => [Separator]
    | c :: rest => c :: rest
    end
  end.

End filepathx.

(** The runner as generators_test.go ends with it. *)
Module Runner.

Import filepath.

Definition templateExt : chars := chars_of ".accio".

Inductive fileType := fileRegular | fileDir.

Global Instance fileType_eq_dec : EqDecision fileType.
Proof. solve_decision. Defined.

Definition hasTemplateExtension (path : chars) : bool :=
  (length templateExt <? length path)%nat
  && bool_decide (drop (length path - length templateExt) path = templateExt).

(** [normalizePath] cleans up the path and normalizes it so it can be
    compared with other paths referring to the same file. *)
Definition normalizePath (p : chars) : chars :=
  let p := Clean p in
  match p with
  | c :: rest => if Ascii.eqb c Separator then rest else p
  | [] => p
  end.

(** *** The run over a file tree *)

Import filepathx Generator.

(** What the parser makes of a template. *)
Record blueprint := mkBlueprint { Body : chars; Filename : chars; Skip : bool }.

Section Walk.

(** [E] stands for the errors that come from outside the runner: from the
    file tree, the parser and the file system. The runner looks into them
    with [os.IsNotExist] only. *)
Context {E : Type} (IsNotExist : E → bool).

(** Go's [error] values the runner handles: an error from outside, the
    sentinel [filepath.SkipDir], and the runner's own [*RunError], which
    wraps an error together with a path. *)
Inductive error :=
| foreign (e : E)
| SkipDir
| RunError (Err : error) (Path : chars).

(** [os.IsNotExist] does not look inside a [*RunError]. *)
Definition isNotExist (err : error) : bool :=
  match err with
  | foreign e => IsNotExist e
  | _ => false
  end.

(** The runner works through three interfaces and three functions of its
    caller. A call of one of them, indexed by the type of its answer:
    - [ReadFile] of the [FileTreeReader];
    - [Parse] of the [BlueprintParser], which answers with a pointer
      ([None] for [nil]) and an error;
    - [Stat], [MkdirAll] and [WriteFile] of the [Filesystem]; of the file
      info that [Stat] answers with ([None] for [nil]) only [IsDir] is
      read;
    - a function of the caller of type [OnExistsFn], [OnErrorFn] or
      [OnSuccessFn], applied to its arguments. *)
Inductive call : Type → Type :=
| ReadFile (filename : chars) : call (chars * option error)
| Parse (b : chars) : call (option blueprint * option error)
| Stat (name : chars) : call (option bool * option error)
| MkdirAll (path : chars) (perm : N) : call (option error)
| WriteFile (name data : chars) (perm : N) : call (option error)
| OnExistsFn (path : chars) : call bool
| OnErrorFn (err : error) : call bool
| OnSuccessFn (src dst : chars) : call unit.

(** Code that makes calls: it is done with a result, or makes a call and
    goes on from the answer. *)
Inductive prog (R : Type) : Type :=
| Ret (r : R)
| Vis {A : Type} (c : call A) (k : A → prog R).
Global Arguments Ret {R} r.
Global Arguments Vis {R A} c k.

Fixpoint bind {R S : Type} (p : prog R) (f : R → prog S) : prog S :=
  match p with
  | Ret r => f r
  | Vis c k => Vis c (λ a, bind (k a) f)
  end.

Global Instance prog_bind : MBind prog := λ _ _ f p, bind p f.
Global Instance prog_ret : MRet prog := λ _ r, Ret r.
Global Instance prog_fmap : FMap prog := λ _ _ f p, bind p (λ a, Ret (f a)).

Definition perform {A : Type} (c : call A) : prog A := Vis c Ret.

(** The fields of [Runner] but [fs] and [mp], the interfaces the calls go
    to. The three callbacks are Go functions: code that may make calls. *)
Record Runner := mkRunner {
  writeDir : chars;
  onExists : chars → prog bool;
  onError : error → prog bool;
  onSuccess : chars → chars → prog unit;
  ignore : gmap chars fileType
}.

(** An option changes the runner it is applied to. *)
Definition OptionFn : Type := Runner → Runner.

Definition IgnoreFile (p : chars) : OptionFn :=
  let p := normalizePath p in
  λ r, mkRunner (writeDir r) (onExists r) (onError r) (onSuccess r)
                (<[p := fileRegular]> (ignore r)).

Definition IgnoreDir (p : chars) : OptionFn :=
  let p := normalizePath p in
  λ r, mkRunner (writeDir r) (onExists r) (onError r) (onSuccess r)
                (<[p := fileDir]> (ignore r)).

Definition OnFileExists (fn : chars → prog bool) : OptionFn :=
  λ r, mkRunner (writeDir r) fn (onError r) (onSuccess r) (ignore r).

Definition OnError (fn : error → prog bool) : OptionFn :=
  λ r, mkRunner (writeDir r) (onExists r) fn (onSuccess r) (ignore r).

Definition OnSuccess (fn : chars → chars → prog unit) : OptionFn :=
  λ r, mkRunner (writeDir r) (onExists r) (onError r) fn (ignore r).

Definition NewRunner (dir : chars) (options : list OptionFn) : Runner :=
  foldl (λ r option, option r)
    {| writeDir := dir;
       ignore := ∅;
       onExists := λ _, Ret false;
       onError := λ _, Ret false;
       onSuccess := λ _ _, Ret tt |}
    options.

Definition handleError (r : Runner) (err : error) (path : chars)
  : prog (option error) :=
  let err := RunError err path in
  skip ← onError r err;
  if skip : bool then mret None else mret (Some err).

(** How the function that [Run] hands to [Walk] ends: it returns an error
    or [nil], or it panics on a [nil] it was answered with. *)
Inductive outcome := returns (err : option error) | panics.

(** The function that [Run] hands to [Walk] is given here in three parts.
    [writeFile] is its end, from [MkdirAll] on. *)
Definition writeFile (r : Runner) (fpath target body : chars) : prog outcome :=
  err ← perform (MkdirAll (Dir target) 493);
  match err with
  | Some e => returns <$> handleError r e fpath
  | None =>
    err ← perform (WriteFile target body 509);
    match err with
    | Some e => returns <$> handleError r e fpath
    | None => _ ← onSuccess r fpath target; mret (returns None)
    end
  end.

(** [writeTarget] is the function from its last [Stat] on: [skip] is the
    condition [err == nil && !r.onExists(target)], which calls [onExists]
    only if there was no error. *)
Definition writeTarget (r : Runner) (fpath target body : chars) : prog outcome :=
  '(_, err) ← perform (Stat target);
  skip ← match err with
          | None => negb <$> onExists r target
          | Some _ => mret false
          end;
  if skip : bool then mret (returns None)
  else
    match err with
    | Some e =>
      if negb (isNotExist e) then returns <$> handleError r e fpath
      else writeFile r fpath target body
    | None => writeFile r fpath target body
    end.

(** [walkFn] is the function that [Run] hands to [Walk], which calls it
    for each file and directory of the tree. [ignored] is the [switch]
    over the entry of [r.ignore]: the result it returns with, if one of
    its cases holds. *)
Definition walkFn (r : Runner) (fpath : chars) (isDir : bool) (err : option error)
  : prog outcome :=
  match err with
  | Some e => returns <$> handleError r e fpath
  | None =>
    let fpath := normalizePath fpath in
    let ignored : option (option error) :=
      match ignore r !! fpath with
      | Some ignoredFile =>
        if isDir && bool_decide (ignoredFile = fileDir) then Some (Some SkipDir)
        else if negb isDir && bool_decide (ignoredFile = fileRegular) then Some None
        else None
      | None => None
      end in
    match ignored with
    | Some res => mret (returns res)
    | None =>
      if isDir then mret (returns None)
      else
        '(body, err) ← perform (ReadFile fpath);
        match err with
        | Some e => returns <$> handleError r e fpath
        | None =>
          let target := Join [writeDir r; fpath] in
          if hasTemplateExtension target then
            let target := take (length target - length templateExt) target in
            '(tpl, err) ← perform (Parse body);
            match err, tpl with
            | Some e, _ => returns <$> handleError r e fpath
            | None, None => mret panics
            | None, Some tpl =>
              if Skip tpl then mret (returns None)
              else if decide (Filename tpl ≠ []) then
                let basename := Base target in
                let target := joinWithinRoot (writeDir r) (Filename tpl) in
                '(stat, err) ← perform (Stat target);
                match err, stat with
                | None, None => mret panics
                | None, Some true =>
                  writeTarget r fpath (Join [target; basename]) (Body tpl)
                | _, _ => writeTarget r fpath target (Body tpl)
                end
              else writeTarget r fpath target (Body tpl)
            end
          else writeTarget r fpath target body
        end
    end
  end.

(** *** Runs of a program *)

(** A call with its answer. *)
Inductive event :=
| Event {A : Type} (c : call A) (a : A).

(** [runs p tr res]: the program can make the calls of [tr], be answered
    as [tr] says, and end with [res]. *)
Fixpoint runs {R : Type} (p : prog R) (tr : list event) (res : R) : Prop :=
  match p with
  | Ret r => tr = [] ∧ res = r
  | Vis c k => ∃ a tr', tr = Event c a :: tr' ∧ runs (k a) tr' res
  end.

(** The run of a program in an environment, which answers the calls and
    has a state of its own: the calls made, the result and the state in
    the end. *)
Fixpoint exec {S R : Type} (env : ∀ A, call A → S → A * S) (p : prog R) (s : S)
  : list event * R * S :=
  match p with
  | Ret r => ([], r, s)
  | Vis c k =>
    let '(a, s) := env _ c s in
    let '(tr, r, s) := exec env (k a) s in
    (Event c a :: tr, r, s)
  end.

End Walk.

End Runner.

(** The runner of the earlier version, whose method slices the path
    without looking at its length: [None] stands for the run-time panic of
    a slice out of range. *)
Module OldRunner.

Definition templateExt : chars := chars_of ".accio".

Definition hasTemplateExtension (path : chars) : option bool :=
  let l := length path in
  if (l <? length templateExt)%nat then None
  else Some (bool_decide (drop (l - length templateExt) path = templateExt)).

End OldRunner.

(** ** Vocabulary of the statements *)

Module Spec.

Import Template.

(** The names of the variables of a document, in sequence order. *)
Definition names (m : Markup) : list string := (Vars m).*1.

(** The name a tag defines as a variable: it is a [variable] tag, its
    [name] attribute is not empty, and it has a body. *)
Definition definedVar (tag : TagNode) : option string :=
  let n := nameAttrLoop (Attributes tag) in
  if decide (Name tag = tagVariable ∧ n ≠ "" ∧ is_Some (TagBody tag))
  then Some n else None.


(** The distinct elements of a list, each at its first occurrence. *)
Fixpoint firstSeen (l : list string) : list string :=
  match l with
  | [] => []
  | x :: l' => x :: filter (λ y, y ≠ x) (firstSeen l')
  end.

(** The names after one more definition of [n]. *)
Definition addName (acc : list string) (n : string) : list string :=
  if decide (n ∈ acc) then acc else acc ++ [n].

(** The states the assembler can be in: the fresh document, and what the
    operations of markup.go make of a reachable state. *)
Inductive reachable : state → Prop :=
| reach_new : reachable (newMarkup, [])
| reach_setVar name val s : reachable s → reachable (setVar name val s)
| reach_setPartial name val s : reachable s → reachable (setPartial name val s)
| reach_filename val m log :
    reachable (m, log) →
    reachable ({| Filename := val; Skip := Skip m; MBody := MBody m;
                  Vars := Vars m; Partials := Partials m |}, log)
| reach_skip val m log :
    reachable (m, log) →
    reachable ({| Filename := Filename m; Skip := val; MBody := MBody m;
                  Vars := Vars m; Partials := Partials m |}, log)
| reach_body val m log :
    reachable (m, log) →
    reachable ({| Filename := Filename m; Skip := Skip m; MBody := val;
                  Vars := Vars m; Partials := Partials m |}, log)
| reach_log entry m log : reachable (m, log) → reachable (m, log ++ [entry]).

End Spec.

(** *** Inputs to run the assembler on *)

(** A stand-in for [wrapInlineScript] to run the assembler with. *)
Definition wrapDemo (s : string) : string := ("(" ++ s ++ ")")%string.

Definition tagOf (name : string) (attrs : list Attr) (content : string)
  (inline : bool) : TagNode :=
  mkTag name attrs (Some (mkBody content inline)).

Definition nameIs (n : string) : Attr := mkAttr "name" n.

(** *** Lines of the tokenizer's input *)

(** A comment line starts with [#]; a blank line holds spaces and tabs
    only. *)
Definition isCommentLine (line : chars) : bool :=
  match line with
  | c :: _ => Ascii.eqb c "#"
  | [] => false
  end.

Definition isBlankLine (line : chars) : bool := forallb Lexer.isSpace line.

(** Input that consists of blank lines and comment lines only. *)
Definition blankOrComments (s : chars) : bool :=
  forallb (λ line, isBlankLine line || isCommentLine line) (split_on newline s).

(** What ends an identifier at the front of [rest]: the end of the input,
    or a terminator that is not itself an identifier character. *)
Definition endsIdentifier (left rest : chars) : Prop :=
  match rest with
  | [] => True
  | c :: _ => Lexer.isIdentChar c = false ∧ Lexer.isTerminator left rest = true
  end.

(** A line of a multi-line body: it has no newline in it. *)
Definition isLine (line : chars) : Prop := newline ∉ line.

(** The text of a multi-line body with the given lines; a body without
    lines has no text. *)
Definition bodyOf (lines : list chars) : option chars :=
  match lines with
  | [] => None
  | _ :: _ => Some (join_with newline lines)
  end.

(** *** Terminal tokens *)

(** The two kinds of token that end a scan. *)
Definition isTerminal (t : Lexer.token) : bool :=
  match Lexer.typ t with
  | Lexer.tokenEOF | Lexer.tokenError => true
  | _ => false
  end.

(** A token sequence as a scan must produce it: tokens that are not
    terminal, then one terminal token. *)
Definition terminated (toks : list Lexer.token) : Prop :=
  ∃ front t, toks = front ++ [t]
             ∧ forallb (λ t', negb (isTerminal t')) front = true
             ∧ isTerminal t = true.


(** What a state function may leave behind when its input has length
    below [n]: tokens that are not terminal and shorter input to go on
    with, or a terminated token sequence. *)
Definition plain (toks : list Lexer.token) : Prop :=
  forallb (λ t, negb (isTerminal t)) toks = true.

Definition outcomeOk (n : nat) (o : Lexer.outcome) : Prop :=
  match o.2 with
  | Some (_, s') => plain o.1 ∧ (length s' < n)%nat
  | None => terminated o.1
  end.

(** *** The test table of the tokenizer *)

Definition nl : string := String newline EmptyString.
Definition tb : string := String tab EmptyString.
Definition quoted (s : string) : string :=
  String dquote (s ++ String dquote EmptyString)%string.

Definition tId (text : string) : Lexer.token := Lexer.mkToken Lexer.tokenIdentifier text.
Definition tStr (text : string) : Lexer.token := Lexer.mkToken Lexer.tokenString text.
Definition tBody (text : string) : Lexer.token := Lexer.mkToken Lexer.tokenBody text.
Definition tSpaces (text : string) : Lexer.token := Lexer.mkToken Lexer.tokenSpace text.

(** [lexTests]: each input with the tokens expected for it, kind and text. *)
Definition lexTests : list (string * list Lexer.token) :=
  let tEOF := Lexer.tEOF in
  let tSpace := Lexer.tSpace in
  let tAttrDeclare := Lexer.tAttrDeclare in
  let tAssign := Lexer.tAssign in
  let tNewline := Lexer.tNewline in
  let tBodyLeft := Lexer.tBodyLeft in
  let tBodyRight := Lexer.tBodyRight in
  let tError := Lexer.tError in
  [ ("", [tEOF]);
    (" " ++ nl ++ tb, [tEOF]);
    ("# this is a comment", [tEOF]);
    ("# line1" ++ nl ++ "#line2", [tEOF]);
    ("tag", [tId "tag"; tEOF]);
    ("tag-1", [tId "tag-1"; tEOF]);
    ("tag -attr=" ++ quoted "value",
     [tId "tag"; tSpace; tAttrDeclare; tId "attr"; tAssign; tStr (quoted "value"); tEOF]);
    ("tag -attr1=" ++ quoted "1" ++ " -attr2=" ++ quoted "2",
     [tId "tag"; tSpace; tAttrDeclare; tId "attr1"; tAssign; tStr (quoted "1");
      tSpace; tAttrDeclare; tId "attr2"; tAssign; tStr (quoted "2"); tEOF]);
    ("tag -attr=" ++ quoted "",
     [tId "tag"; tSpace; tAttrDeclare; tId "attr"; tAssign; tStr (quoted ""); tEOF]);
    ("tag " ++ tb ++ " -attr=" ++ quoted "1",
     [tId "tag"; tSpaces (" " ++ tb ++ " "); tAttrDeclare; tId "attr"; tAssign;
      tStr (quoted "1"); tEOF]);
    ("tag -attr=" ++ quoted "1" ++ " " ++ tb ++ tb ++ " -attr=" ++ quoted "2",
     [tId "tag"; tSpace; tAttrDeclare; tId "attr"; tAssign; tStr (quoted "1");
      tSpaces (" " ++ tb ++ tb ++ " "); tAttrDeclare; tId "attr"; tAssign;
      tStr (quoted "2"); tEOF]);
    ("tag " ++ tb ++ tb, [tId "tag"; tSpaces (" " ++ tb ++ tb); tEOF]);
    ("tag << test >>",
     [tId "tag"; tSpace; tBodyLeft; tBody " test "; tBodyRight; tEOF]);
    ("tag << " ++ tb ++ nl ++ " test " ++ nl ++ ">>",
     [tId "tag"; tSpace; tBodyLeft; tNewline; tBody " test "; tNewline; tBodyRight; tEOF]);
    ("tag -a=" ++ quoted "1" ++ " << test >>",
     [tId "tag"; tSpace; tAttrDeclare; tId "a"; tAssign; tStr (quoted "1"); tSpace;
      tBodyLeft; tBody " test "; tBodyRight; tEOF]);
    ("tag -a=" ++ quoted "1" ++ " " ++ tb ++ tb ++ " << test >>",
     [tId "tag"; tSpace; tAttrDeclare; tId "a"; tAssign; tStr (quoted "1");
      tSpaces (" " ++ tb ++ tb ++ " "); tBodyLeft; tBody " test "; tBodyRight; tEOF]);
    ("tag1" ++ nl ++ "tag2", [tId "tag1"; tNewline; tId "tag2"; tEOF]);
    ("tag1 -a=" ++ quoted "1" ++ nl ++ "tag2",
     [tId "tag1"; tSpace; tAttrDeclare; tId "a"; tAssign; tStr (quoted "1"); tNewline;
      tId "tag2"; tEOF]);
    ("tag1 <<body>>" ++ nl ++ "tag2",
     [tId "tag1"; tSpace; tBodyLeft; tBody "body"; tBodyRight; tNewline; tId "tag2"; tEOF]);
    ("tag1 <<" ++ nl ++ "body" ++ nl ++ ">>" ++ nl ++ "tag2",
     [tId "tag1"; tSpace; tBodyLeft; tNewline; tBody "body"; tNewline; tBodyRight;
      tNewline; tId "tag2"; tEOF]);
    ("tag1 -a=" ++ quoted "1" ++ " <<body>>" ++ nl ++ "tag2",
     [tId "tag1"; tSpace; tAttrDeclare; tId "a"; tAssign; tStr (quoted "1"); tSpace;
      tBodyLeft; tBody "body"; tBodyRight; tNewline; tId "tag2"; tEOF]);
    ("tag << " ++ tb ++ " " ++ nl ++ "test" ++ nl ++ ">>",
     [tId "tag"; tSpace; tBodyLeft; tNewline; tBody "test"; tNewline; tBodyRight; tEOF]);
    ("tag <<test>> " ++ tb ++ " " ++ nl,
     [tId "tag"; tSpace; tBodyLeft; tBody "test"; tBodyRight; tNewline; tEOF]);
    ("tag <<" ++ nl ++ "test" ++ nl ++ ">> " ++ tb ++ " " ++ nl,
     [tId "tag"; tSpace; tBodyLeft; tNewline; tBody "test"; tNewline; tBodyRight;
      tNewline; tEOF]);
    ("tag <<" ++ nl ++ "<<>>" ++ nl ++ ">>",
     [tId "tag"; tSpace; tBodyLeft; tNewline; tBody "<<>>"; tNewline; tBodyRight; tEOF]);
    ("*", [tError "invalid character U+002A '*'"]);
    ("t*g", [tError "invalid character U+002A '*' within tag identifier, space or newline expected"]);
    ("-tag", [tError "invalid character U+002D '-'"]);
    ("tag-", [tError "invalid character U+002D '-' at the end of the identifier"]);
    (" tag", [tError "misplaced character U+0074 't', tag identifier must start on the newline"])
  ]%string.

(** *** Paths below a root *)

(** An ordinary path element: not empty, not [.], not [..], no separator
    in it. *)
Definition isRealElem (e : chars) : Prop :=
  e ≠ [] ∧ e ≠ filepath.dot ∧ e ≠ filepath.dotdot ∧ filepath.Separator ∉ e.

(** [p] is inside [root]: both are rooted or both are not, and the cleaned
    elements of [p] are those of [root] followed by ordinary elements. *)
Definition within (root p : chars) : Prop :=
  filepath.isRooted p = filepath.isRooted root
  ∧ ∃ elems, Forall isRealElem elems
             ∧ filepath.cleanElems p = filepath.cleanElems root ++ elems.

(** A cleaned path written out from its elements. *)
Definition render (rooted : bool) (out : list chars) : chars :=
  if rooted then filepath.Separator :: join_with filepath.Separator out
  else match out with
       | [] => filepath.dot
       | _ :: _ => join_with filepath.Separator out
       end.

(** The elements of a cleaned path: [..] elements, only in front of a path
    that is not rooted, then ordinary elements. *)
Definition cleanShape (rooted : bool) (out : list chars) : Prop :=
  ∃ k elems, out = replicate k filepath.dotdot ++ elems
             ∧ Forall isRealElem elems
             ∧ (rooted = true → k = 0%nat).

(** *** More about the assembled document *)

(** The five tag names the assembler acts on. *)
Definition reservedNames : list string :=
  [Template.tagFilename; Template.tagSkip; Template.tagTemplate;
   Template.tagPartial; Template.tagVariable].

(** The name a tag defines as a partial: it is a [partial] tag, its [name]
    attribute is not empty, and it has a body. *)
Definition definedPartial (tag : TagNode) : option string :=
  let n := Template.nameAttrLoop (Attributes tag) in
  if decide (Name tag = Template.tagPartial ∧ n ≠ "" ∧ is_Some (TagBody tag))
  then Some n else None.

(** How often the log reports an overwritten variable, and an overwritten
    partial. *)
Definition isVarExists (entry : Template.LogEntry) : bool :=
  match entry with
  | Template.LogVarExists _ => true
  | _ => false
  end.

Definition isPartialExists (entry : Template.LogEntry) : bool :=
  match entry with
  | Template.LogPartialExists _ => true
  | _ => false
  end.

Definition countLog (p : Template.LogEntry → bool) (log : list Template.LogEntry) : nat :=
  length (List.filter p log).

(** The last tag of a list that defines [n], for a notion [def] of what a
    tag defines, and the last tag called [name]. *)
Definition lastDefining (def : TagNode → option string) (ts : list TagNode)
  (n : string) : option TagNode :=
  last (filter (λ t, def t = Some n) ts).

Definition lastNamed (name : string) (ts : list TagNode) : option TagNode :=
  last (filter (λ t, Name t = name) ts).

(** *** Registering several repositories *)

(** [AddRepository] called for each repository of a list in turn: the
    registry in the end, and the errors of the calls that failed. *)
Definition addAll {Repository : Type} (Path : Repository → string)
  (r : Generators.Registry) (repos : list Repository)
  : Generators.Registry * list Generators.PathError :=
  foldl (λ acc repo,
           let '(r', err) := Generators.AddRepository Path acc.1 repo in
           (r', acc.2 ++ option_list err))
        (r, []) repos.

(** *** Runs of the runner *)

Section Traces.
Import filepath Runner.
Context {E : Type}.

Implicit Types (r : @Runner E) (tr : list (@event E)) (ev : @event E).

(** A runner whose three callbacks are functions of the caller, seen in
    the run as calls. *)
Definition observed r : @Runner E :=
  OnSuccess (λ src dst, perform (OnSuccessFn src dst))
    (OnError (λ err, perform (OnErrorFn err))
      (OnFileExists (λ path, perform (OnExistsFn path)) r)).

(** The files a run wrote or tried to write: name, data, permissions. *)
Definition written tr : list (chars * chars * N) :=
  omap (λ ev, match ev with
              | Event c _ =>
                match c with
                | WriteFile name data perm => Some (name, data, perm)
                | _ => None
                end
              end) tr.

(** The errors a run gave to [onError], each with the answer. *)
Definition reported tr : list (@error E * bool) :=
  omap (λ ev, match ev with
              | Event c a =>
                match c in call A return A → option (@error E * bool) with
                | OnErrorFn err => λ a, Some (err, a)
                | _ => λ _, None
                end a
              end) tr.

(** The files a run gave to [onSuccess]: source and destination. *)
Definition succeeded tr : list (chars * chars) :=
  omap (λ ev, match ev with
              | Event c _ =>
                match c with
                | OnSuccessFn src dst => Some (src, dst)
                | _ => None
                end
              end) tr.

(** What the parser was given in a run, and what it answered. *)
Definition parsed tr
  : list (chars * (option blueprint * option (@error E))) :=
  omap (λ ev, match ev with
              | Event c a =>
                match c in call A
                      return A → option (chars * (option blueprint * option (@error E)))
                with
                | Parse b => λ a, Some (b, a)
                | _ => λ _, None
                end a
              end) tr.

(** The error a call of the file tree, the parser or the file system
    answered. *)
Definition failure ev : option (@error E) :=
  match ev with
  | Event c a =>
    match c in call A return A → option (@error E) with
    | ReadFile _ => λ a, a.2
    | Parse _ => λ a, a.2
    | Stat _ => λ a, a.2
    | MkdirAll _ _ => λ a, a
    | WriteFile _ _ _ => λ a, a
    | _ => λ _, None
    end a
  end.

Definition failures tr : list (@error E) := omap failure tr.

(** A call answered with neither a value nor an error. *)
Definition nilAnswer ev : bool :=
  match ev with
  | Event c a =>
    match c in call A return A → bool with
    | Parse _ => λ a, match a with (None, None) => true | _ => false end
    | Stat _ => λ a, match a with (None, None) => true | _ => false end
    | _ => λ _, false
    end a
  end.

(** The errors of a run that the runner never passes over: those of
    [ReadFile], [Parse], [MkdirAll] and [WriteFile]. *)
Definition fatal tr : list (@error E) :=
  omap (λ ev, match ev with
              | Event c a =>
                match c in call A return A → option (@error E) with
                | ReadFile _ => λ a, a.2
                | Parse _ => λ a, a.2
                | MkdirAll _ _ => λ a, a
                | WriteFile _ _ _ => λ a, a
                | _ => λ _, None
                end a
              end) tr.

(** The names [Stat] was called with in a run, with the answers. *)
Definition statted tr : list (chars * (option bool * option (@error E))) :=
  omap (λ ev, match ev with
              | Event c a =>
                match c in call A
                      return A → option (chars * (option bool * option (@error E)))
                with
                | Stat name => λ a, Some (name, a)
                | _ => λ _, None
                end a
              end) tr.

(** The calls of the caller's functions in a run. *)
Definition callbacks tr : list (@event E) :=
  omap (λ ev, match ev with
              | Event c _ =>
                match c with
                | OnExistsFn _ | OnErrorFn _ | OnSuccessFn _ _ => Some ev
                | _ => None
                end
              end) tr.

(** An option that registers a path to ignore. *)
Definition isIgnoreOption (option : @OptionFn E) : Prop :=
  ∃ p, option = IgnoreFile p ∨ option = IgnoreDir p.

(** The path an error of the callback is reported with. *)
Definition errorPath (fpath : chars) (err : option (@error E)) : chars :=
  match err with
  | Some _ => fpath
  | None => normalizePath fpath
  end.

End Traces.

(** *** Runs for the examples *)

(** The errors of the examples are booleans: [true] for a file that does
    not exist. *)
Module Demo.
Import filepath filepathx Generator Runner.

Definition notExist : @Runner.error bool := foreign true.
Definition failed : @Runner.error bool := foreign false.

Definition runner : @Runner.Runner bool := observed (NewRunner (chars_of "out") []).

Definition walk (fpath : string) : prog outcome :=
  walkFn id runner (chars_of fpath) false None.

(** A file that cannot be read, and a caller who does not skip it. *)
Definition unreadable : list (@Runner.event bool) :=
  [Event (ReadFile (chars_of "a.txt")) ([], Some failed);
   Event (OnErrorFn (RunError failed (chars_of "a.txt"))) false].

(** A plain file copied to where nothing was. *)
Definition copied : list (@Runner.event bool) :=
  [Event (ReadFile (chars_of "a.txt")) (chars_of "hello", None);
   Event (Stat (chars_of "out/a.txt")) (None, Some notExist);
   Event (MkdirAll (chars_of "out") 493) None;
   Event (WriteFile (chars_of "out/a.txt") (chars_of "hello") 509) None;
   Event (OnSuccessFn (chars_of "a.txt") (chars_of "out/a.txt")) tt].

(** A template that asks to be skipped. *)
Definition skipping : blueprint := mkBlueprint [] [] true.

Definition skipped : list (@Runner.event bool) :=
  [Event (ReadFile (chars_of "a.txt.accio")) (chars_of "skip", None);
   Event (Parse (chars_of "skip")) (Some skipping, None)].

(** A template that names a directory, over a file the caller lets it
    overwrite. *)
Definition named : blueprint := mkBlueprint (chars_of "body") (chars_of "../sub") false.

Definition generated : list (@Runner.event bool) :=
  [Event (ReadFile (chars_of "a.txt.accio")) (chars_of "tpl", None);
   Event (Parse (chars_of "tpl")) (Some named, None);
   Event (Stat (chars_of "out/sub")) (Some true, None);
   Event (Stat (chars_of "out/sub/a.txt")) (Some false, None);
   Event (OnExistsFn (chars_of "out/sub/a.txt")) true;
   Event (MkdirAll (chars_of "out/sub") 493) None;
   Event (WriteFile (chars_of "out/sub/a.txt") (chars_of "body") 509) None;
   Event (OnSuccessFn (chars_of "a.txt.accio") (chars_of "out/sub/a.txt")) tt].

(** A template named [...accio] whose blueprint names the current
    directory. *)
Definition dotted : blueprint := mkBlueprint [] (chars_of ".") false.

Definition climbing : list (@Runner.event bool) :=
  [Event (ReadFile (chars_of "...accio")) (chars_of "tpl", None);
   Event (Parse (chars_of "tpl")) (Some dotted, None);
   Event (Stat (chars_of "out")) (Some true, None);
   Event (Stat (chars_of ".")) (None, Some notExist);
   Event (MkdirAll (chars_of ".") 493) None;
   Event (WriteFile (chars_of ".") [] 509) None;
   Event (OnSuccessFn (chars_of "...accio") (chars_of ".")) tt].

(** A plain file that cannot be written. *)
Definition refused : list (@Runner.event bool) :=
  [Event (ReadFile (chars_of "a.txt")) (chars_of "hello", None);
   Event (Stat (chars_of "out/a.txt")) (None, Some notExist);
   Event (MkdirAll (chars_of "out") 493) None;
   Event (WriteFile (chars_of "out/a.txt") (chars_of "hello") 509) (Some failed)].

(** A parser that answers with neither a blueprint nor an error. *)
Definition broken : list (@Runner.event bool) :=
  [Event (ReadFile (chars_of "a.txt.accio")) (chars_of "tpl", None);
   Event (Parse (chars_of "tpl")) (None, None)].

End Demo.

(** * Properties of the assembler *)

Section AssemblerFacts.

Import Template Spec.

Variable wrap : string → string.

Local Abbreviation parseTag := (Template.parseTag wrap).
Local Abbreviation parseFrom := (Template.parseFrom wrap).
Local Abbreviation parseLogged := (Template.parseLogged wrap).
Local Abbreviation parse := (Template.parse wrap).
Local Abbreviation script := (Template.parseScriptBody wrap).

(** [find] is the search for the first entry with the given name. *)
Lemma find_from_list_find (v : vars) key i :
  find_from v key i =
  match list_find (λ x, x.1 = key) v with
  | Some (k, _) => i + Z.of_nat k
  | None => -1
  end.
Proof.
  revert i. induction v as [|x v IH]; intros i; simpl; [done|].
  case_decide as Hx; [f_equal; lia|].
  rewrite IH. destruct (list_find _ v) as [[k y]|]; simpl; [lia|done].
Qed.

Lemma find_absent (v : vars) key : key ∉ v.*1 → find v key = -1.
Proof.
  intros Hn. unfold find. rewrite find_from_list_find.
  destruct (list_find _ v) as [[k y]|] eqn:E; [|done].
  apply list_find_Some in E as (Hk & Hy & _). exfalso. apply Hn.
  apply list_elem_of_fmap. exists y. split; [done|].
  by eapply list_elem_of_lookup_2.
Qed.

Lemma find_present (v : vars) key :
  key ∈ v.*1 →
  ∃ k x, find v key = Z.of_nat k ∧ v !! k = Some (key, x)
         ∧ ∀ j y, v !! j = Some y → (j < k)%nat → y.1 ≠ key.
Proof.
  intros Hin. unfold find. rewrite find_from_list_find.
  destruct (list_find _ v) as [[k y]|] eqn:E.
  - apply list_find_Some in E as (Hk & Hy & Hlt). destruct y as [y1 y2].
    simpl in Hy. subst y1. exists k, y2. split; [lia|]. split; [done|].
    intros j y Hj Hjk. by eapply Hlt.
  - apply list_find_None in E. apply list_elem_of_fmap in Hin as [y [-> Hy]].
    rewrite Forall_forall in E. by destruct (E y Hy).
Qed.

(** In a sequence without repeated names, a name is found where it is. *)
Lemma find_at (v : vars) key k x :
  NoDup v.*1 → v !! k = Some (key, x) → find v key = Z.of_nat k.
Proof.
  intros Hnd Hk.
  assert (key ∈ v.*1) as Hin.
  { apply list_elem_of_fmap. exists (key, x). split; [done|].
    by eapply list_elem_of_lookup_2. }
  destruct (find_present v key Hin) as (k' & x' & -> & Hk' & _).
  f_equal. apply (NoDup_lookup v.*1 k' k key Hnd).
  - by rewrite list_lookup_fmap, Hk'.
  - by rewrite list_lookup_fmap, Hk.
Qed.

(** The two cases of [setVar]. *)
Lemma setVar_fresh name val m log :
  name ∉ names m →
  setVar name val (m, log) = (setVars m (Vars m ++ [(name, val)]), log).
Proof.
  intros Hn. unfold setVar. rewrite (find_absent _ _ Hn). by case_decide.
Qed.

Lemma setVar_known name val m log k x :
  NoDup (names m) → Vars m !! k = Some (name, x) →
  setVar name val (m, log) =
  (setVars m (<[k := (name, val)]> (Vars m)), log ++ [LogVarExists name]).
Proof.
  intros Hnd Hk. unfold setVar. rewrite (find_at _ _ _ _ Hnd Hk).
  case_decide as Hne; [|lia]. by rewrite Nat2Z.id.
Qed.

Lemma setVar_known_at name val (s : state) k x :
  NoDup (names s.1) → Vars s.1 !! k = Some (name, x) →
  setVar name val s =
  (setVars s.1 (<[k := (name, val)]> (Vars s.1)), s.2 ++ [LogVarExists name]).
Proof. destruct s as [m log]. apply setVar_known. Qed.

Lemma names_setVar name val s :
  names (setVar name val s).1 =
  if decide (name ∈ names s.1) then names s.1 else names s.1 ++ [name].
Proof.
  destruct s as [m log]. cbn [fst].
  destruct (decide (name ∈ names m)) as [Hin|Hin].
  - destruct (find_present _ _ Hin) as (k & x & Hf & Hk & _).
    unfold setVar. rewrite Hf. case_decide; [|lia]. rewrite Nat2Z.id.
    unfold names. simpl. rewrite list_fmap_insert. simpl.
    apply list_insert_id. by rewrite list_lookup_fmap, Hk.
  - rewrite setVar_fresh; [|done]. unfold names. simpl.
    by rewrite fmap_app.
Qed.

Lemma NoDup_names_setVar name val s :
  NoDup (names s.1) → NoDup (names (setVar name val s).1).
Proof.
  intros Hnd. rewrite names_setVar. case_decide; [done|].
  apply NoDup_app. split; [done|]. split; [|apply NoDup_singleton].
  intros x Hx Hx'. apply list_elem_of_singleton in Hx'. by subst.
Qed.

Ltac decide_names :=
  repeat (case_decide; try done; try (exfalso; by eauto)).

Lemma length_zero_empty (n : string) : String.length n = 0%nat ↔ n = "".
Proof. destruct n; simpl; split; intros; congruence. Qed.

(** What one tag does to the variables. *)
Lemma parseTag_definedVar s t n :
  definedVar t = Some n → parseTag s t = setVar n (script t) s.
Proof.
  unfold definedVar. case_decide as H; [|done]. intros [= <-].
  destruct H as (Hname & Hn & [b Hb]). destruct s as [m log].
  unfold Template.parseTag, parseTagNameAttr. rewrite Hname, Hb.
  rewrite <- length_zero_empty in Hn.
  decide_names.
Qed.

Ltac parseTag_cases :=
  unfold Template.parseTag, parseTagNameAttr;
  repeat first
    [ case_decide
    | match goal with
      | |- context [match TagBody ?t with _ => _ end] => destruct (TagBody t) eqn:?
      end ];
  simpl.

Lemma parseTag_not_definedVar s t :
  definedVar t = None → Vars (parseTag s t).1 = Vars s.1.
Proof.
  unfold definedVar. case_decide as H; [done|]. intros _. destruct s as [m log].
  parseTag_cases; try done.
  exfalso. apply H. rewrite <- length_zero_empty. eauto.
Qed.

Lemma names_parseTag s t :
  names (parseTag s t).1 =
  match definedVar t with
  | Some n => addName (names s.1) n
  | None => names s.1
  end.
Proof.
  destruct (definedVar t) as [n|] eqn:E.
  - rewrite (parseTag_definedVar _ _ _ E). apply names_setVar.
  - unfold names. by rewrite parseTag_not_definedVar.
Qed.

Lemma names_parseFrom ts : ∀ s,
  names (parseFrom s ts).1 = foldl addName (names s.1) (omap definedVar ts).
Proof.
  induction ts as [|t ts IH]; intros s; simpl; [done|].
  unfold Template.parseFrom in *. simpl. rewrite IH, names_parseTag.
  by destruct (definedVar t).
Qed.

Lemma NoDup_addName acc n : NoDup acc → NoDup (addName acc n).
Proof.
  intros Hnd. unfold addName. case_decide; [done|].
  apply NoDup_app. split; [done|]. split; [|apply NoDup_singleton].
  intros x Hx Hx'. apply list_elem_of_singleton in Hx'. by subst.
Qed.

Lemma NoDup_foldl_addName l : ∀ acc, NoDup acc → NoDup (foldl addName acc l).
Proof.
  induction l as [|x l IH]; intros acc Hnd; simpl; [done|].
  by apply IH, NoDup_addName.
Qed.

Lemma firstSeen_filter (P : string → Prop) `{∀ x, Decision (P x)} l :
  firstSeen (filter P l) = filter P (firstSeen l).
Proof.
  induction l as [|x l IH]; simpl; [done|].
  rewrite filter_cons. case_decide as Hx.
  - simpl. rewrite filter_cons. case_decide; [|done]. f_equal.
    rewrite IH. rewrite !list_filter_filter. apply list_filter_iff. tauto.
  - rewrite filter_cons. case_decide; [done|]. rewrite IH.
    rewrite list_filter_filter. apply list_filter_iff. intros y. split; [|tauto].
    intros Hy. split; [done|]. intros ->. done.
Qed.

Lemma foldl_addName_firstSeen l : ∀ acc,
  foldl addName acc l = acc ++ filter (λ y, y ∉ acc) (firstSeen l).
Proof.
  induction l as [|x l IH]; intros acc; simpl.
  - by rewrite app_nil_r.
  - rewrite IH. unfold addName. rewrite filter_cons. case_decide as Hx.
    + case_decide; [done|]. f_equal. rewrite list_filter_filter.
      apply list_filter_iff. intros y. split; [|tauto]. intros Hy. split; [done|].
      intros ->. done.
    + case_decide; [|done]. rewrite <- app_assoc. simpl. do 2 f_equal.
      rewrite list_filter_filter.
      apply list_filter_iff. intros y. rewrite elem_of_app, list_elem_of_singleton. 
      tauto.
Qed.
Lemma firstSeen_elem l x : x ∈ firstSeen l → x ∈ l.
Proof.
  revert x. induction l as [|y l IH]; intros x; simpl; [done|].
  rewrite !elem_of_cons, list_elem_of_filter.
  intros [?|[_ ?]]; [by left|right; by apply IH].
Qed.



Lemma NoDup_firstSeen l : NoDup (firstSeen l).
Proof.
  induction l as [|y l IH]; simpl; [constructor|]. constructor.
  - rewrite list_elem_of_filter. by intros [? _].
  - by apply NoDup_filter.
Qed.

Lemma parseFrom_app s ts1 ts2 :
  parseFrom s (ts1 ++ ts2) = parseFrom (parseFrom s ts1) ts2.
Proof. apply foldl_app. Qed.

Lemma filter_all {A} (P : A → Prop) `{∀ x, Decision (P x)} (l : list A) :
  Forall P l → filter P l = l.
Proof.
  induction 1 as [|x l Hx Hl IH]; [done|].
  rewrite filter_cons_True by done. by f_equal.
Qed.

Lemma names_parse ts : names (parse ts) = firstSeen (omap definedVar ts).
Proof.
  unfold Template.parse, Template.parseLogged.
  rewrite names_parseFrom, foldl_addName_firstSeen. simpl.
  apply filter_all. apply Forall_forall. intros x _. apply not_elem_of_nil.
Qed.

Lemma NoDup_names_parseFrom s ts :
  NoDup (names s.1) → NoDup (names (parseFrom s ts).1).
Proof. intros H. rewrite names_parseFrom. by apply NoDup_foldl_addName. Qed.

(** Entries stay where they are: later tags only change values and add
    entries behind. *)
Lemma names_parseFrom_prefix s ts : names s.1 `prefix_of` names (parseFrom s ts).1.
Proof. rewrite names_parseFrom, foldl_addName_firstSeen. by eexists. Qed.

Lemma reachable_parseTag s t : reachable s → reachable (parseTag s t).
Proof.
  intros Hs. destruct s as [m log]. parseTag_cases; eauto using reachable.
  - exact (reach_setPartial _ _ (m, log) Hs).
  - exact (reach_setVar _ _ (m, log) Hs).
Qed.

Lemma reachable_parseFrom ts : ∀ s, reachable s → reachable (parseFrom s ts).
Proof.
  induction ts as [|t ts IH]; intros s Hs; simpl; [done|].
  by apply IH, reachable_parseTag.
Qed.

Lemma NoDup_names_reachable s : reachable s → NoDup (names s.1).
Proof.
  induction 1; simpl in *; try done.
  - constructor.
  - by apply NoDup_names_setVar.
  - by destruct s.
Qed.

(** C5: in every state the assembler can reach, no variable name occurs
    twice in the variables sequence, and [setVar], [setPartial], the stores
    to the scalar fields and a whole loop iteration lead to states where
    this holds again; after assembling any tags, the sequence lists the
    names the [variable] tags define, each once, in the order in which
    they were first seen. *)
Theorem vars_unique_in_first_seen_order s :
  reachable s →
  NoDup (names s.1)
  ∧ (∀ name val, reachable (setVar name val s)
                 ∧ NoDup (names (setVar name val s).1))
  ∧ (∀ name val, reachable (setPartial name val s)
                 ∧ names (setPartial name val s).1 = names s.1)
  ∧ (∀ t, reachable (parseTag s t) ∧ NoDup (names (parseTag s t).1))
  ∧ (∀ ts, reachable (parseLogged ts)
           ∧ NoDup (names (parse ts))
           ∧ names (parse ts) = firstSeen (omap definedVar ts)).
Proof.
  intros Hs. split; [by apply NoDup_names_reachable|].
  split; [|split; [|split]].
  - intros name val. split; [by constructor|].
    by apply NoDup_names_setVar, NoDup_names_reachable.
  - intros name val. split; [by constructor|]. by destruct s.
  - intros t. split; [by apply reachable_parseTag|].
    by apply NoDup_names_reachable, reachable_parseTag.
  - intros ts. split; [apply reachable_parseFrom; constructor|].
    split; [|apply names_parse].
    rewrite names_parse. apply NoDup_firstSeen.
Qed.

(** C1: when a [variable] tag defines a name that an earlier [variable]
    tag defined, the variables sequence keeps its length, the entry at the
    position the first definition took now holds the new expression
    source, nothing else in the sequence changes, and one more line is
    logged. *)
Theorem setVar_redefinition_in_place ts1 t1 ts2 t2 n :
  definedVar t1 = Some n →
  definedVar t2 = Some n →
  Forall (λ t, definedVar t ≠ Some n) ts1 →
  let pos := length (Vars (parse ts1)) in
  let before := parseLogged (ts1 ++ t1 :: ts2) in
  let after := parseLogged (ts1 ++ t1 :: ts2 ++ [t2]) in
  Vars (parse (ts1 ++ [t1])) !! pos = Some (n, script t1)
  ∧ (∃ v, Vars before.1 !! pos = Some (n, v))
  ∧ Vars after.1 = <[pos := (n, script t2)]> (Vars before.1)
  ∧ Vars after.1 !! pos = Some (n, script t2)
  ∧ length (Vars after.1) = length (Vars before.1)
  ∧ after.2 = before.2 ++ [LogVarExists n].
Proof.
  intros Ht1 Ht2 Hts1 pos before after.
  assert (n ∉ names (parse ts1)) as Hfresh.
  { rewrite names_parse. intros Hin%firstSeen_elem.
    apply list_elem_of_omap in Hin as (t & Ht & Hd).
    rewrite Forall_forall in Hts1. by apply (Hts1 t). }
  assert (parseLogged (ts1 ++ [t1])
          = (setVars (parse ts1) (Vars (parse ts1) ++ [(n, script t1)]),
             (parseLogged ts1).2)) as E1.
  { unfold Template.parseLogged at 1. rewrite parseFrom_app. simpl.
    rewrite (parseTag_definedVar _ _ _ Ht1).
    fold (parseLogged ts1). unfold Template.parse in *.
    destruct (parseLogged ts1) as [m1 log1]. by apply setVar_fresh. }
  assert (Vars (parse (ts1 ++ [t1])) !! pos = Some (n, script t1)) as Hfirst.
  { unfold Template.parse. rewrite E1. simpl.
    by rewrite lookup_app_r, Nat.sub_diag. }
  assert (before = parseFrom (parseLogged (ts1 ++ [t1])) ts2) as Eb.
  { unfold before, Template.parseLogged.
    by rewrite !parseFrom_app. }
  assert (NoDup (names before.1)) as Hnd.
  { apply NoDup_names_reachable, reachable_parseFrom. constructor. }
  assert (∃ v, Vars before.1 !! pos = Some (n, v)) as [v Hv].
  { destruct (names_parseFrom_prefix (parseLogged (ts1 ++ [t1])) ts2) as [k Hk].
    rewrite <- Eb in Hk.
    assert (names before.1 !! pos = Some n) as Hpos.
    { rewrite Hk. rewrite lookup_app_l.
      - unfold names. rewrite list_lookup_fmap. fold (parse (ts1 ++ [t1])).
        by rewrite Hfirst.
      - apply lookup_lt_is_Some. unfold names. rewrite list_lookup_fmap.
        fold (parse (ts1 ++ [t1])). by rewrite Hfirst. }
    unfold names in Hpos. rewrite list_lookup_fmap in Hpos.
    destruct (Vars before.1 !! pos) as [[n' v]|] eqn:E; [|done].
    simpl in Hpos. exists v. congruence. }
  assert (after = setVar n (script t2) before) as Ea.
  { unfold after, before, Template.parseLogged.
    replace (ts1 ++ t1 :: ts2 ++ [t2]) with ((ts1 ++ t1 :: ts2) ++ [t2])
      by (by rewrite <- app_assoc).
    rewrite parseFrom_app. simpl. by apply parseTag_definedVar. }
  rewrite Ea, (setVar_known_at _ _ _ pos v Hnd Hv). simpl.
  split; [done|]. split; [by exists v|]. split; [done|].
  split; [|split; [by rewrite length_insert|done]].
  apply list_lookup_insert_eq. by eapply lookup_lt_Some.
Qed.



Lemma parseFrom_snoc s t ts :
  parseFrom s (ts ++ [t]) = parseTag (parseFrom s ts) t.
Proof. by rewrite parseFrom_app. Qed.



Lemma nameAttrLoop_last pre a post :
  AttrName a = attrName → Forall (λ a', AttrName a' ≠ attrName) post →
  nameAttrLoop (pre ++ a :: post) = AttrValue a.
Proof.
  intros Ha Hpost. unfold nameAttrLoop. rewrite foldl_app. simpl.
  case_decide; [|done]. generalize (AttrValue a).
  induction Hpost as [|a' post Ha' _ IH]; intros v; simpl; [done|].
  by case_decide.
Qed.

(** C2, as the code has it: a [filename] or [skipif] tag stores an
    expression source in the [Filename] or [Skip] field and leaves the
    rest of the document and the log as they are, whatever the field held
    before; so the last such tag decides the field, and nothing is logged
    for it. The source is the one the body carries; a body is not called
    for: a tag without one is taken as well, stores the empty source and
    is not reported either. *)
Theorem scalar_tag_overwrites_silently t m log ts :
  Name t = tagFilename ∨ Name t = tagSkip →
  (∀ b, TagBody t = Some b →
        script t = if Inline b then wrap (Content b) else Content b)
  ∧ (TagBody t = None → script t = "")
  ∧ (Name t = tagFilename →
     parseTag (m, log) t =
       ({| Filename := script t; Skip := Skip m; MBody := MBody m;
           Vars := Vars m; Partials := Partials m |}, log)
     ∧ Filename (parse (ts ++ [t])) = script t)
  ∧ (Name t = tagSkip →
     parseTag (m, log) t =
       ({| Filename := Filename m; Skip := script t; MBody := MBody m;
           Vars := Vars m; Partials := Partials m |}, log)
     ∧ Skip (parse (ts ++ [t])) = script t)
  ∧ (parseLogged (ts ++ [t])).2 = (parseLogged ts).2.
Proof.
  intros Hname. split; [|split; [|split; [|split]]].
  - intros b Hb. unfold Template.parseScriptBody. by rewrite Hb.
  - intros Hb. unfold Template.parseScriptBody. by rewrite Hb.
  - intros Hf. split.
    + unfold Template.parseTag. by case_decide.
    + unfold Template.parse, Template.parseLogged. rewrite parseFrom_snoc.
      destruct (parseFrom _ ts) as [m' log']. unfold Template.parseTag.
      by case_decide.
  - intros Hs. split.
    + unfold Template.parseTag. rewrite Hs. by repeat case_decide.
    + unfold Template.parse, Template.parseLogged. rewrite parseFrom_snoc.
      destruct (parseFrom _ ts) as [m' log']. unfold Template.parseTag.
      rewrite Hs. by repeat case_decide.
  - unfold Template.parseLogged. rewrite parseFrom_snoc.
    destruct (parseFrom _ ts) as [m' log']. unfold Template.parseTag.
    destruct Hname as [-> | ->]; by repeat case_decide.
Qed.


(** C10: among several attributes called [name] the last one counts. If
    its value is empty the tag counts as one without a name: a [partial]
    or [variable] tag is skipped with the log line for the missing
    attribute. Otherwise a tag with a body is stored under that value. *)
Theorem name_attribute_last_wins t pre a post :
  Attributes t = pre ++ a :: post →
  AttrName a = attrName →
  Forall (λ a', AttrName a' ≠ attrName) post →
  nameAttrLoop (Attributes t) = AttrValue a
  ∧ (AttrValue a ≠ "" →
     (∀ log, parseTagNameAttr t log = ((AttrValue a, None), log))
     ∧ (∀ s, Name t = tagVariable → is_Some (TagBody t) →
             parseTag s t = setVar (AttrValue a) (script t) s)
     ∧ (∀ s, Name t = tagPartial → is_Some (TagBody t) →
             parseTag s t = setPartial (AttrValue a) (parseBody t) s))
  ∧ (AttrValue a = "" →
     (∀ log, parseTagNameAttr t log =
             (("", Some errSkipTag), log ++ [LogMissingAttr (Name t) attrName]))
     ∧ (∀ m log, Name t = tagPartial ∨ Name t = tagVariable →
                 parseTag (m, log) t =
                 (m, log ++ [LogMissingAttr (Name t) attrName]))).
Proof.
  intros Hattrs Ha Hpost.
  assert (nameAttrLoop (Attributes t) = AttrValue a) as Hloop.
  { rewrite Hattrs. by apply nameAttrLoop_last. }
  split; [done|]. split.
  - intros Hv. split; [|split].
    + intros log. unfold parseTagNameAttr. rewrite Hloop.
      rewrite <- length_zero_empty in Hv. by case_decide.
    + intros s Hn Hb. apply parseTag_definedVar. unfold definedVar.
      rewrite Hloop. decide_names.
    + intros [m log] Hn [b Hb]. rewrite <- length_zero_empty in Hv.
      unfold Template.parseTag, parseTagNameAttr. rewrite Hloop, Hn, Hb.
      decide_names.
  - intros Hv. split.
    + intros log. unfold parseTagNameAttr. rewrite Hloop, Hv. by case_decide.
    + intros m log Hn. unfold Template.parseTag, parseTagNameAttr.
      rewrite Hloop, Hv. simpl.
      destruct Hn as [-> | ->]; decide_names.
Qed.

(** Where [setVar] leaves its value: at the place [find] reports. *)
Lemma find_from_names (v v' : vars) key : ∀ i,
  v.*1 = v'.*1 → find_from v key i = find_from v' key i.
Proof.
  revert v'. induction v as [|x v IH]; intros [|x' v'] i E; try done.
  simpl in *. injection E as E1 E2. rewrite E1.
  case_decide; [done|]. by apply IH.
Qed.

Lemma find_from_app_fresh (v : vars) key x : ∀ i,
  key ∉ v.*1 → find_from (v ++ [(key, x)]) key i = i + Z.of_nat (length v).
Proof.
  induction v as [|y v IH]; intros i Hn; simpl.
  - case_decide; [lia|done].
  - rewrite fmap_cons, not_elem_of_cons in Hn. destruct Hn as [Hy Hn].
    case_decide; [done|]. rewrite IH by done. lia.
Qed.

Lemma setVar_stored name val s :
  ∃ k, find (Vars (setVar name val s).1) name = Z.of_nat k
       ∧ Vars (setVar name val s).1 !! k = Some (name, val).
Proof.
  destruct s as [m log]. destruct (decide (name ∈ names m)) as [Hin|Hin].
  - destruct (find_present _ _ Hin) as (k & x & Hf & Hk & _).
    exists k. unfold setVar. rewrite Hf. case_decide; [|lia].
    rewrite Nat2Z.id. simpl. split.
    + unfold find in *. rewrite <- Hf. apply find_from_names.
      rewrite list_fmap_insert. simpl.
      apply list_insert_id. by rewrite list_lookup_fmap, Hk.
    + apply list_lookup_insert_eq. by eapply lookup_lt_Some.
  - exists (length (Vars m)). rewrite setVar_fresh by done. simpl. split.
    + unfold find. by rewrite find_from_app_fresh.
    + by rewrite lookup_app_r, Nat.sub_diag.
Qed.

(** C3: of a tag with a body, [filename], [skipif] and [variable] store
    the content passed through [wrapInlineScript] when the body is inline
    and the content itself when it is multi-line; [template] and [partial]
    store the content itself in either mode. *)
Theorem body_mode_decides_stored_form t b s :
  TagBody t = Some b →
  let stored := if Inline b then wrap (Content b) else Content b in
  (Name t = tagFilename → Filename (parseTag s t).1 = stored)
  ∧ (Name t = tagSkip → Skip (parseTag s t).1 = stored)
  ∧ (Name t = tagVariable → nameAttrLoop (Attributes t) ≠ "" →
     parseTag s t = setVar (nameAttrLoop (Attributes t)) stored s
     ∧ ∃ k, find (Vars (parseTag s t).1) (nameAttrLoop (Attributes t)) = Z.of_nat k
            ∧ Vars (parseTag s t).1 !! k
              = Some (nameAttrLoop (Attributes t), stored))
  ∧ (Name t = tagTemplate → MBody (parseTag s t).1 = Content b)
  ∧ (Name t = tagPartial → nameAttrLoop (Attributes t) ≠ "" →
     parseTag s t = setPartial (nameAttrLoop (Attributes t)) (Content b) s
     ∧ Partials (parseTag s t).1 !! nameAttrLoop (Attributes t)
       = Some (Content b)).
Proof.
  intros Hb stored.
  assert (script t = stored) as Hscript.
  { unfold Template.parseScriptBody. by rewrite Hb. }
  assert (parseBody t = Content b) as Hbody.
  { unfold parseBody. by rewrite Hb. }
  assert (∀ name, Name t = name → nameAttrLoop (Attributes t) ≠ "" →
          name = tagVariable →
          definedVar t = Some (nameAttrLoop (Attributes t))) as Hdef.
  { intros name Hn Ha ->. unfold definedVar. rewrite Hb. decide_names. }
  destruct s as [m log]. split; [|split; [|split; [|split]]].
  - intros Hn. unfold Template.parseTag. rewrite Hn. by decide_names.
  - intros Hn. unfold Template.parseTag. rewrite Hn. by decide_names.
  - intros Hn Ha. rewrite (parseTag_definedVar _ t _ (Hdef _ Hn Ha eq_refl)).
    rewrite Hscript. split; [done|]. apply setVar_stored.
  - intros Hn. unfold Template.parseTag. rewrite Hn. by decide_names.
  - intros Hn Ha. rewrite <- length_zero_empty in Ha.
    assert (parseTag (m, log) t
            = setPartial (nameAttrLoop (Attributes t)) (Content b) (m, log)) as E.
    { unfold Template.parseTag, parseTagNameAttr. rewrite Hn, Hb, Hbody.
      decide_names. }
    split; [done|]. rewrite E. simpl. apply lookup_insert_eq.
Qed.

End AssemblerFacts.

(** ** The assembler on concrete tags *)

Lemma setVar_redefinition_in_place_witness :
  let t1 := tagOf "variable" [nameIs "x"] "1" false in
  let t2 := tagOf "variable" [nameIs "x"] "2" false in
  let ty := tagOf "variable" [nameIs "y"] "3" true in
  (Spec.definedVar t1 = Some "x" ∧ Spec.definedVar t2 = Some "x"
   ∧ Forall (λ t, Spec.definedVar t ≠ Some "x") [ty])
  ∧ Template.Vars (Template.parse wrapDemo [ty; t1; ty; t2])
    = [("y", "(3)"); ("x", "2")].
Proof.
  intros t1 t2 ty.
  assert (Spec.definedVar t1 = Some "x") as H1 by reflexivity.
  assert (Spec.definedVar t2 = Some "x") as H2 by reflexivity.
  assert (Forall (λ t, Spec.definedVar t ≠ Some "x") [ty]) as H3.
  { repeat constructor. discriminate. }
  split; [by repeat split|].
  destruct (setVar_redefinition_in_place wrapDemo [ty] t1 [ty] t2 "x" H1 H2 H3)
    as (_ & _ & E & _).
  exact E.
Defined.

Lemma vars_unique_in_first_seen_order_witness :
  let s := Template.setVar "x" "2" (Template.setVar "x" "1" (Template.newMarkup, [])) in
  Spec.reachable s ∧ NoDup (Spec.names s.1).
Proof.
  intros s.
  assert (Spec.reachable s) as H by (repeat constructor).
  split; [exact H|].
  exact (proj1 (vars_unique_in_first_seen_order wrapDemo s H)).
Defined.

Lemma scalar_tag_overwrites_silently_witness :
  let t := tagOf "filename" [] "b" true in
  let t0 := tagOf "filename" [] "a" false in
  (Name t = Template.tagFilename ∨ Name t = Template.tagSkip)
  ∧ Template.Filename (Template.parse wrapDemo ([t0] ++ [t])) = "(b)"
  ∧ (Template.parseLogged wrapDemo ([t0] ++ [t])).2 = [].
Proof.
  intros t t0.
  assert (Name t = Template.tagFilename ∨ Name t = Template.tagSkip) as H
    by (left; reflexivity).
  split; [exact H|].
  destruct (scalar_tag_overwrites_silently wrapDemo t Template.newMarkup [] [t0] H)
    as (_ & _ & Hf & _ & Hlog).
  split; [exact (proj2 (Hf eq_refl))|exact Hlog].
Defined.

(** C2: a body is not required. A [filename] tag without a body, after one
    that gave a file name, is taken without a line in the log and leaves
    the empty file name: document and log are those of no tags at all. *)
Lemma scalar_tag_without_body_is_taken :
  let t0 := tagOf "filename" [] "a.txt" false in
  let t := mkTag "filename" [] None in
  TagBody t = None
  ∧ Template.Filename (Template.parse wrapDemo [t0]) = "a.txt"
  ∧ Template.parseLogged wrapDemo [t0; t] = (Template.newMarkup, []).
Proof. intros t0 t. by vm_compute. Qed.

Lemma body_mode_decides_stored_form_witness :
  let t := tagOf "skipif" [] "x > 1" true in
  TagBody t = Some (mkBody "x > 1" true)
  ∧ Template.Skip (Template.parseTag wrapDemo (Template.newMarkup, []) t).1
    = "(x > 1)".
Proof.
  intros t. split; [reflexivity|].
  destruct (body_mode_decides_stored_form wrapDemo t (mkBody "x > 1" true)
              (Template.newMarkup, []) eq_refl) as (_ & Hs & _).
  exact (Hs eq_refl).
Defined.


Lemma name_attribute_last_wins_witness :
  let a := nameIs "second" in
  let t := tagOf "variable" [nameIs "first"; a; mkAttr "kind" "k"] "1" false in
  (Attributes t = [nameIs "first"] ++ a :: [mkAttr "kind" "k"]
   ∧ AttrName a = Template.attrName
   ∧ Forall (λ a', AttrName a' ≠ Template.attrName) [mkAttr "kind" "k"])
  ∧ Template.nameAttrLoop (Attributes t) = "second".
Proof.
  intros a t.
  assert (Forall (λ a', AttrName a' ≠ Template.attrName) [mkAttr "kind" "k"]) as H3.
  { repeat constructor. discriminate. }
  split; [by repeat split|].
  exact (proj1 (name_attribute_last_wins wrapDemo t [nameIs "first"] a
                  [mkAttr "kind" "k"] eq_refl eq_refl H3)).
Defined.

(** * Properties of the tokenizer *)

(** ** Runs, pieces and lines *)

Lemma span_all (p : ascii → bool) (l : chars) :
  forallb p l = true → span p l = (l, []).
Proof.
  induction l as [|c l IH]; simpl; [done|].
  intros [Hc Hl]%andb_true_iff. by rewrite Hc, IH.
Qed.

Lemma span_app (p : ascii → bool) (l : chars) c rest :
  forallb p l = true → p c = false → span p (l ++ c :: rest) = (l, c :: rest).
Proof.
  intros Hl Hc. induction l as [|d l IH]; simpl.
  - by rewrite Hc.
  - simpl in Hl. apply andb_true_iff in Hl as [Hd Hl]. by rewrite Hd, IH.
Qed.

Lemma span_stop (p : ascii → bool) c rest :
  p c = false → span p (c :: rest) = ([], c :: rest).
Proof. intros Hc. simpl. by rewrite Hc. Qed.

Lemma split_on_nonempty sep s : split_on sep s ≠ [].
Proof.
  destruct s as [|c s]; simpl; [done|].
  destruct (Ascii.eqb c sep); [done|]. by destruct (split_on sep s).
Qed.

Lemma join_split sep s : join_with sep (split_on sep s) = s.
Proof.
  induction s as [|c s IH]; simpl; [done|].
  destruct (Ascii.eqb c sep) eqn:E.
  - apply Ascii.eqb_eq in E. subst c.
    pose proof (split_on_nonempty sep s) as Hne.
    destruct (split_on sep s) as [|p ps]; [done|]. simpl in *. by rewrite IH.
  - pose proof (split_on_nonempty sep s) as Hne.
    destruct (split_on sep s) as [|p ps]; [done|].
    destruct ps as [|q ps]; simpl in *; by rewrite <- IH.
Qed.

Lemma split_on_pieces sep s : Forall (λ piece, sep ∉ piece) (split_on sep s).
Proof.
  induction s as [|c s IH]; simpl.
  - repeat constructor. apply not_elem_of_nil.
  - destruct (Ascii.eqb c sep) eqn:E.
    + constructor; [apply not_elem_of_nil|done].
    + destruct (split_on sep s) as [|p ps]; simpl.
      * repeat constructor. apply not_elem_of_cons. split; [|apply not_elem_of_nil].
        intros ->. by rewrite Ascii.eqb_refl in E.
      * inversion IH as [|? ? Hp Hps]; subst. constructor; [|done].
        apply not_elem_of_cons. split; [|done].
        intros ->. by rewrite Ascii.eqb_refl in E.
Qed.

Lemma join_with_cons sep p q ps :
  join_with sep (p :: q :: ps) = p ++ sep :: join_with sep (q :: ps).
Proof. done. Qed.

Lemma text_chars (l : chars) : chars_of (text_of l) = l.
Proof. apply list_ascii_of_string_of_list_ascii. Qed.

Lemma chars_text (s : string) : text_of (chars_of s) = s.
Proof. apply string_of_list_ascii_of_string. Qed.

Section LexerFacts.

Import Lexer.

Variables left right : chars.

Local Abbreviation step := (Lexer.step left right).
Local Abbreviation run := (Lexer.run left right).

(** ** Blank lines and comments *)

Lemma isSpace_not_special c :
  isSpace c = true →
  Ascii.eqb c "#" = false ∧ isEndOfLine c = false ∧ isIdentChar c = false.
Proof.
  unfold isSpace. intros [H|H]%orb_true_iff; apply Ascii.eqb_eq in H; by subst c.
Qed.

Lemma not_newline_line (line : chars) :
  newline ∉ line → forallb (λ c, negb (isEndOfLine c)) line = true.
Proof.
  induction line as [|c line IH]; simpl; [done|].
  intros [Hc Hl]%not_elem_of_cons. rewrite IH by done.
  unfold isEndOfLine. destruct (Ascii.eqb c newline) eqn:E; [|done].
  apply Ascii.eqb_eq in E. by subst.
Qed.

Lemma skipComment_line line rest :
  newline ∉ line → skipComment (line ++ newline :: rest) = rest.
Proof.
  intros Hl. unfold skipComment. by rewrite span_app by (by try apply not_newline_line).
Qed.

Lemma skipComment_last line : newline ∉ line → skipComment line = [].
Proof.
  intros Hl. unfold skipComment. by rewrite span_all by (by apply not_newline_line).
Qed.

Lemma run_S fuel st s :
  run (S fuel) st s =
  (step st s).1 ++ match (step st s).2 with
                   | None => []
                   | Some (st', s') => run fuel st' s'
                   end.
Proof. simpl. by destruct (Lexer.step left right st s). Qed.

Lemma blank_line_cases c line :
  isBlankLine (c :: line) || isCommentLine (c :: line) = true →
  Ascii.eqb c "#" = false →
  forallb isSpace (c :: line) = true.
Proof.
  intros [H|H]%orb_true_iff Hc; [done|]. simpl in H. congruence.
Qed.

(** A blank or comment line that a newline ends leaves no token. *)
Lemma step_silent_line line rest :
  newline ∉ line →
  isBlankLine line || isCommentLine line = true →
  step lexLineStart (line ++ newline :: rest) = ([], Some (lexLineStart, rest)).
Proof.
  intros Hnl Hline. destruct line as [|c line]; [done|].
  rewrite <- app_comm_cons. unfold Lexer.step.
  destruct (Ascii.eqb c "#") eqn:Ec.
  - apply not_elem_of_cons in Hnl as [_ Hnl]. by rewrite skipComment_line.
  - rewrite app_comm_cons, span_app; [done| |done].
    by apply blank_line_cases.
Qed.

(** The last line, blank or comment, leads to the end-of-input token. *)
Lemma run_silent_last fuel line :
  newline ∉ line →
  isBlankLine line || isCommentLine line = true →
  (length line < fuel)%nat →
  run fuel lexLineStart line = [tEOF].
Proof.
  intros Hnl Hline Hfuel. destruct fuel as [|fuel]; [lia|].
  destruct line as [|c line]; [done|].
  rewrite run_S. unfold Lexer.step.
  destruct (Ascii.eqb c "#") eqn:Ec.
  - apply not_elem_of_cons in Hnl as [_ Hnl].
    rewrite skipComment_last by done.
    destruct fuel as [|fuel]; [simpl in Hfuel; lia|done].
  - rewrite span_all; [done|]. by apply blank_line_cases.
Qed.

Lemma run_silent_lines lines : ∀ fuel,
  lines ≠ [] →
  Forall (λ line, newline ∉ line) lines →
  Forall (λ line, isBlankLine line || isCommentLine line = true) lines →
  (length (join_with newline lines) < fuel)%nat →
  run fuel lexLineStart (join_with newline lines) = [tEOF].
Proof.
  induction lines as [|line lines IH]; intros fuel Hne Hnl Hok Hfuel; [done|].
  inversion Hnl as [|? ? Hnl1 Hnl2]; inversion Hok as [|? ? Hok1 Hok2]; subst.
  destruct lines as [|line2 lines].
  - by apply run_silent_last.
  - rewrite join_with_cons in *. rewrite length_app, length_cons in Hfuel.
    destruct fuel as [|fuel]; [lia|].
    rewrite run_S, step_silent_line by done. simpl.
    apply IH; [done|done|done|lia].
Qed.

Lemma run_blankOrComments s fuel :
  blankOrComments s = true → (length s < fuel)%nat →
  run fuel lexLineStart s = [tEOF].
Proof.
  intros Hin Hfuel. unfold blankOrComments in Hin. rewrite forallb_forall in Hin.
  pose proof (run_silent_lines (split_on newline s) fuel) as H.
  rewrite join_split in H. apply H; [apply split_on_nonempty|apply split_on_pieces| |done].
  apply Forall_forall. intros line Hl. apply Hin. by apply list_elem_of_In.
Qed.

(** ** Identifiers *)

Lemma isWordChar_not_special c :
  isWordChar c = true →
  Ascii.eqb c "#" = false ∧ isSpace c = false ∧ isEndOfLine c = false
  ∧ isDash c = false.
Proof.
  intros Hc. repeat split.
  - destruct (Ascii.eqb c "#") eqn:E; [|done]. apply Ascii.eqb_eq in E. by subst.
  - destruct (isSpace c) eqn:E; [|done].
    apply orb_true_iff in E as [E|E]; apply Ascii.eqb_eq in E; by subst.
  - destruct (isEndOfLine c) eqn:E; [|done]. apply Ascii.eqb_eq in E. by subst.
  - destruct (isDash c) eqn:E; [|done]. apply Ascii.eqb_eq in E. by subst.
Qed.

Lemma scanIdentRest_app body : ∀ ident rest,
  forallb isIdentChar body = true →
  scanIdentRest left ident (body ++ rest) = scanIdentRest left (ident ++ body) rest.
Proof.
  induction body as [|c body IH]; intros ident rest Hb; simpl.
  - by rewrite app_nil_r.
  - simpl in Hb. apply andb_true_iff in Hb as [Hc Hb]. rewrite Hc, IH by done.
    by rewrite <- app_assoc.
Qed.

Lemma scanIdentRest_end ident rest :
  endsIdentifier left rest →
  scanIdentRest left ident rest =
  if endsWithDash ident then Failed errTrailingDash else Scanned ident rest.
Proof.
  destruct rest as [|c rest]; [done|]. intros [Hc Ht].
  unfold scanIdentRest. by rewrite Hc, Ht.
Qed.

Lemma scanIdentifier_run c body rest :
  isWordChar c = true → forallb isIdentChar body = true →
  endsIdentifier left rest →
  scanIdentifier left (c :: body ++ rest) =
  if endsWithDash (c :: body) then Failed errTrailingDash
  else Scanned (c :: body) rest.
Proof.
  intros Hc Hb Hr. unfold scanIdentifier. rewrite Hc.
  by rewrite scanIdentRest_app, scanIdentRest_end.
Qed.

Lemma endsWithDash_snoc ident c : endsWithDash (ident ++ [c]) = isDash c.
Proof. unfold endsWithDash. by rewrite last_snoc. Qed.

(** A line that starts with a word character starts with an identifier
    scan. *)
Lemma step_lineStart_word c s :
  isWordChar c = true →
  step lexLineStart (c :: s) =
  match scanIdentifier left (c :: s) with
  | Scanned name rest =>
    ([mkToken tokenIdentifier (text_of name)], Some (lexInsideTag, rest))
  | Failed msg => halt [] msg
  end.
Proof.
  intros Hc. destruct (isWordChar_not_special c Hc) as (H1 & H2 & H3 & _).
  unfold Lexer.step. rewrite H1, span_stop by done. by rewrite H3.
Qed.

(** ** Multi-line bodies *)

Lemma scanMultiline_line l : ∀ body line rest,
  newline ∉ l →
  scanMultiline right body line (l ++ rest) = scanMultiline right body (line ++ l) rest.
Proof.
  induction l as [|c l IH]; intros body line rest Hl; simpl.
  - by rewrite app_nil_r.
  - apply not_elem_of_cons in Hl as [Hc Hl].
    assert (isEndOfLine c = false) as ->.
    { unfold isEndOfLine. destruct (Ascii.eqb c newline) eqn:E; [|done].
      apply Ascii.eqb_eq in E. by subst. }
    rewrite IH by done. by rewrite <- app_assoc.
Qed.

Lemma join_with_snoc_cons sep (l : chars) ls x :
  join_with sep ((l :: ls) ++ [x]) = l ++ sep :: join_with sep (ls ++ [x]).
Proof. simpl. by destruct (ls ++ [x]) eqn:E; [destruct ls|]. Qed.

Lemma addLine_lines lines : ∀ b,
  foldl (λ body l, Some (addLine body l)) (Some b) lines
  = Some (join_with newline (b :: lines)).
Proof.
  induction lines as [|l lines IH]; intros b; [done|].
  cbn [foldl]. rewrite IH. cbn [addLine]. f_equal.
  destruct lines as [|l2 lines]; simpl; [done|]. by rewrite <- app_assoc.
Qed.

Lemma addLine_bodyOf lines :
  foldl (λ body l, Some (addLine body l)) None lines = bodyOf lines.
Proof.
  destruct lines as [|l lines]; [done|]. cbn [foldl addLine]. apply addLine_lines.
Qed.

Lemma scanMultiline_lines lines : ∀ body closing tail,
  Forall (λ l, isLine l ∧ trimRight l ≠ right) lines →
  isLine closing → trimRight closing = right →
  (tail = [] ∨ ∃ t, tail = newline :: t) →
  scanMultiline right body [] (join_with newline (lines ++ [closing]) ++ tail)
  = Scanned (foldl (λ b l, Some (addLine b l)) body lines) tail.
Proof.
  induction lines as [|l lines IH]; intros body closing tail Hlines Hc Ht Htail.
  - simpl. rewrite scanMultiline_line by done. simpl.
    destruct Htail as [-> | [t ->]]; simpl; by case_decide.
  - apply Forall_cons in Hlines as [[Hl Hne] Hrest].
    rewrite join_with_snoc_cons, <- app_assoc, scanMultiline_line by done.
    rewrite <- app_comm_cons. simpl. case_decide; [done|].
    by apply IH.
Qed.

(** Conversely, a scan that finds the end of the body has found a closing
    line, and no line before it is one. *)
Lemma scanMultiline_inv s : ∀ body line b rest,
  newline ∉ line →
  scanMultiline right body line s = Scanned b rest →
  ∃ lines closing,
    line ++ s = join_with newline (lines ++ [closing]) ++ rest
    ∧ Forall (λ l, isLine l ∧ trimRight l ≠ right) lines
    ∧ isLine closing ∧ trimRight closing = right
    ∧ (rest = [] ∨ ∃ t, rest = newline :: t)
    ∧ b = foldl (λ b l, Some (addLine b l)) body lines.
Proof.
  induction s as [|c s IH]; intros body line b rest Hline Hscan; simpl in Hscan.
  - case_decide as Hclose; [|done]. injection Hscan as <- <-.
    exists [], line. simpl. rewrite app_nil_r. by repeat split; auto.
  - destruct (isEndOfLine c) eqn:Ec.
    + apply Ascii.eqb_eq in Ec. subst c. case_decide as Hclose.
      * injection Hscan as <- <-. exists [], line. simpl. repeat split; eauto.
      * apply IH in Hscan as (lines & closing & E & Hl & Hc & Ht & Hr & Hb);
          [|apply not_elem_of_nil].
        exists (line :: lines), closing. simpl in E. rewrite E.
        rewrite join_with_snoc_cons, <- app_assoc. simpl.
        repeat split; auto.
    + apply IH in Hscan as (lines & closing & E & Hl & Hc & Ht & Hr & Hb).
      * exists lines, closing. rewrite <- app_assoc in E. by repeat split.
      * rewrite not_elem_of_app. split; [done|].
        apply not_elem_of_cons. split; [|apply not_elem_of_nil].
        intros <-. unfold isEndOfLine in Ec. by rewrite Ascii.eqb_refl in Ec.
Qed.

Lemma lexBody_multiline blanks s body rest :
  forallb isSpace blanks = true →
  scanMultiline right None [] s = Scanned body rest →
  lexBody left right (blanks ++ newline :: s)
  = lexAfterBody ([mkToken tokenLeftDelim (text_of left); tNewline]
                  ++ bodyTokens body ++ [mkToken tokenRightDelim (text_of right)])
                 rest.
Proof.
  intros Hb Hscan. unfold lexBody. rewrite span_app by done. simpl.
  by rewrite Hscan.
Qed.

(** ** Every scan ends with one terminal token *)

Lemma span_length (p : ascii → bool) s : (length (span p s).2 ≤ length s)%nat.
Proof.
  induction s as [|c s IH]; simpl; [done|].
  destruct (p c); [|simpl; lia]. destruct (span p s) as [a b]. simpl in *. lia.
Qed.

Lemma span_length_lt (p : ascii → bool) c s :
  p c = true → (length (span p (c :: s)).2 < length (c :: s))%nat.
Proof.
  intros Hc. simpl. rewrite Hc. pose proof (span_length p s) as H.
  destruct (span p s) as [a b]. simpl in *. lia.
Qed.

Lemma skipComment_length s : (length (skipComment s) ≤ length s)%nat.
Proof.
  unfold skipComment. pose proof (span_length (λ c, negb (isEndOfLine c)) s) as H.
  destruct (span _ s).2 as [|c rest]; simpl in *; lia.
Qed.

Lemma scanIdentRest_length s : ∀ ident name rest,
  scanIdentRest left ident s = Scanned name rest → (length rest ≤ length s)%nat.
Proof.
  induction s as [|c s IH]; intros ident name rest; cbn [scanIdentRest].
  - destruct (endsWithDash ident); [done|]. intros [= _ <-]; simpl; lia.
  - destruct (isIdentChar c).
    + intros H%IH. simpl. lia.
    + destruct (isTerminator left (c :: s)); [|done].
      destruct (endsWithDash ident); [done|]. intros [= _ <-]; simpl; lia.
Qed.

Lemma scanIdentifier_length s name rest :
  scanIdentifier left s = Scanned name rest → (length rest < length s)%nat.
Proof.
  destruct s as [|c s]; simpl; [done|]. destruct (isWordChar c); [|done].
  intros H%scanIdentRest_length. lia.
Qed.

Lemma scanStringRest_length s : ∀ lit text rest,
  scanStringRest lit s = Scanned text rest → (length rest < length s)%nat.
Proof.
  induction s as [|c s IH]; intros lit text rest; simpl; [done|].
  destruct (Ascii.eqb c dquote).
  - intros [= _ <-]. lia.
  - intros H%IH. lia.
Qed.

Lemma scanString_length s text rest :
  scanString s = Scanned text rest → (length rest < length s)%nat.
Proof.
  destruct s as [|c s]; simpl; [done|]. destruct (Ascii.eqb c dquote); [|done].
  intros H%scanStringRest_length. lia.
Qed.

Lemma scanMultiline_length s : ∀ body line b rest,
  scanMultiline right body line s = Scanned b rest → (length rest ≤ length s)%nat.
Proof.
  induction s as [|c s IH]; intros body line b rest; simpl.
  - case_decide as Hd; [|done]. intros [= _ <-]; simpl; lia.
  - destruct (isEndOfLine c).
    + case_decide as Hd.
      * intros [= _ <-]; simpl; lia.
      * intros H%IH. lia.
    + intros H%IH. lia.
Qed.

Lemma scanInline_length s : ∀ body b rest,
  scanInline right body s = Scanned b rest → (length rest ≤ length s)%nat.
Proof.
  induction s as [|c s IH]; intros body b rest; simpl.
  - destruct (hasPrefix right []); [|done]. intros [= _ <-]. rewrite length_drop. simpl. lia.
  - destruct (hasPrefix right (c :: s)).
    + intros [= _ <-]. rewrite length_drop. simpl. lia.
    + intros H%IH. lia.
Qed.

Lemma plain_app a b : plain a → plain b → plain (a ++ b).
Proof. unfold plain. rewrite forallb_app. by intros -> ->. Qed.

Lemma halt_ok n toks msg : plain toks → outcomeOk n (halt toks msg).
Proof. intros Hp. by exists toks, (tError msg). Qed.

Lemma outcomeOk_mono n m o : outcomeOk n o → (n ≤ m)%nat → outcomeOk m o.
Proof.
  unfold outcomeOk. destruct o.2 as [[st s']|]; [|done]. intros [? ?] ?. split; [done|lia].
Qed.

Lemma lexAfterBody_ok toks s :
  plain toks → outcomeOk (length s) (lexAfterBody toks s).
Proof.
  intros Hp. unfold lexAfterBody. pose proof (span_length isSpace s) as Hlen.
  destruct (span isSpace s).2 as [|c rest].
  - by exists toks, tEOF.
  - destruct (isEndOfLine c).
    + split; [by apply plain_app|]. simpl in *. lia.
    + by apply halt_ok.
Qed.

Lemma lexBody_ok s : outcomeOk (length s) (lexBody left right s).
Proof.
  assert (outcomeOk (length s)
            match scanInline right [] s with
            | Scanned body rest =>
              lexAfterBody (mkToken tokenLeftDelim (text_of left)
                            :: match body with
                               | [] => []
                               | _ :: _ => [mkToken tokenBody (text_of body)]
                               end ++ [mkToken tokenRightDelim (text_of right)]) rest
            | Failed msg => halt [mkToken tokenLeftDelim (text_of left)] msg
            end) as Hinline.
  { destruct (scanInline right [] s) as [body rest|msg] eqn:E; [|by apply halt_ok].
    apply scanInline_length in E.
    eapply outcomeOk_mono; [apply lexAfterBody_ok|lia]. by destruct body. }
  unfold lexBody. pose proof (span_length isSpace s) as Hlen.
  destruct (span isSpace s).2 as [|c rest]; [done|].
  destruct (isEndOfLine c); [|done].
  destruct (scanMultiline right None [] rest) as [body rest'|msg] eqn:E;
    [|by apply halt_ok].
  apply scanMultiline_length in E.
  eapply outcomeOk_mono; [apply lexAfterBody_ok|simpl in *; lia]. by destruct body.
Qed.

Lemma lexAttr_ok s : outcomeOk (length s) (lexAttr left s).
Proof.
  unfold lexAttr. destruct (scanIdentifier left s) as [name s1|msg] eqn:E1;
    [|by apply halt_ok].
  apply scanIdentifier_length in E1. destruct s1 as [|c s2]; [by apply halt_ok|].
  destruct (Ascii.eqb c "="); [|by apply halt_ok].
  destruct (scanString s2) as [lit s3|msg] eqn:E3; [|by apply halt_ok].
  apply scanString_length in E3. split; [done|]. simpl in *. lia.
Qed.

(** Every state function either ends the scan or goes on with less
    input. *)
Lemma step_ok st s : outcomeOk (length s) (step st s).
Proof.
  destruct st; (destruct s as [|c s]; [by exists [], tEOF|]); unfold Lexer.step.
  - destruct (Ascii.eqb c "#").
    + split; [done|]. pose proof (skipComment_length s). simpl. lia.
    + pose proof (span_length isSpace (c :: s)) as Hlen.
      destruct (span isSpace (c :: s)) as [blanks s1]. simpl in Hlen.
      destruct s1 as [|d s2]; [by exists [], tEOF|].
      destruct (isEndOfLine d); [split; [done|simpl in *; lia]|].
      destruct blanks; [|by apply halt_ok].
      destruct (scanIdentifier left (d :: s2)) as [name rest|msg] eqn:E;
        [|by apply halt_ok].
      apply scanIdentifier_length in E. split; [done|]. simpl in *. lia.
  - destruct (isSpace c) eqn:Hc.
    + pose proof (span_length_lt isSpace c s Hc) as Hlen.
      destruct (span isSpace (c :: s)) as [blanks rest]. by split.
    + destruct (isEndOfLine c); [split; [done|simpl; lia]|].
      destruct (isDash c); [eapply outcomeOk_mono; [apply lexAttr_ok|simpl; lia]|].
      destruct (hasPrefix left (c :: s)); [|by apply halt_ok].
      eapply outcomeOk_mono; [apply lexBody_ok|].
      rewrite length_drop. simpl. lia.
Qed.
Lemma run_terminated fuel : ∀ st s,
  (length s < fuel)%nat → terminated (run fuel st s).
Proof.
  induction fuel as [|fuel IH]; intros st s Hfuel; [lia|].
  rewrite run_S. pose proof (step_ok st s) as Hok. unfold outcomeOk in Hok.
  destruct (Lexer.step left right st s) as [toks next]. simpl in *.
  destruct next as [[st' s']|].
  - destruct Hok as [Hp Hlen].
    destruct (IH st' s') as (front & t & E & Hfront & Ht); [lia|].
    exists (toks ++ front), t. rewrite E, app_assoc. split; [done|].
    split; [|done]. by apply plain_app.
  - by rewrite app_nil_r.
Qed.

End LexerFacts.

(** The fuel [collect] starts with is enough: the tokens of any input are
    tokens that are not terminal followed by exactly one terminal token,
    end of input or error. *)
Lemma collect_terminated (input leftCfg rightCfg : string) :
  terminated (Lexer.collect input leftCfg rightCfg).
Proof. unfold Lexer.collect. apply run_terminated. lia. Qed.

(** The scanner gives, for every input of the test table [lexTests], the
    tokens the table expects. *)
Lemma lexTests_pass :
  Forall (λ test, Lexer.collect test.1 "" "" = test.2) lexTests.
Proof. repeat constructor. Qed.

(** C7: input made of blank lines and comment lines only is tokenized to
    the end-of-input token alone: no other token, no error. *)
Theorem blank_and_comment_input_yields_eof (input leftCfg rightCfg : string) :
  blankOrComments (chars_of input) = true →
  Lexer.collect input leftCfg rightCfg = [Lexer.tEOF].
Proof.
  intros Hin. unfold Lexer.collect. apply run_blankOrComments; [done|lia].
Qed.

Lemma blank_and_comment_input_yields_eof_witness :
  let input := text_of (chars_of " " ++ newline :: tab :: newline
                        :: chars_of "# line1" ++ newline :: chars_of "#line2") in
  blankOrComments (chars_of input) = true
  ∧ Lexer.collect input "" "" = [Lexer.tEOF].
Proof.
  intros input.
  assert (blankOrComments (chars_of input) = true) as H by reflexivity.
  split; [exact H|].
  exact (blank_and_comment_input_yields_eof input "" "" H).
Defined.


(** C8: an identifier is a word character followed by word characters
    and dashes. Whatever its length, when its last character before the
    terminator is a dash the scan fails with the message for the trailing
    dash, for a tag name and for an attribute name; when its last
    character is a word character it is accepted whole, dashes inside
    included, and is the text of the identifier token. *)
Theorem identifier_dash_rules (leftCfg rightCfg : string) (c : ascii)
  (body rest : chars) :
  let left := Lexer.leftDelim leftCfg in
  Lexer.isWordChar c = true →
  forallb Lexer.isIdentChar body = true →
  endsIdentifier left rest →
  (Lexer.scanIdentifier left (c :: body ++ "-"%char :: rest)
     = Lexer.Failed Lexer.errTrailingDash
   ∧ Lexer.errTrailingDash
     = "invalid character U+002D '-' at the end of the identifier"
   ∧ Lexer.collect (text_of (c :: body ++ "-"%char :: rest)) leftCfg rightCfg
     = [Lexer.tError Lexer.errTrailingDash]
   ∧ Lexer.lexAttr left (c :: body ++ "-"%char :: rest)
     = Lexer.halt [Lexer.tAttrDeclare] Lexer.errTrailingDash)
  ∧ (∀ d, Lexer.isWordChar d = true →
       Lexer.scanIdentifier left (c :: body ++ d :: rest)
         = Lexer.Scanned (c :: body ++ [d]) rest
       ∧ ∃ toks,
           Lexer.collect (text_of (c :: body ++ d :: rest)) leftCfg rightCfg
           = Lexer.mkToken Lexer.tokenIdentifier (text_of (c :: body ++ [d]))
             :: toks).
Proof.
  intros left Hc Hb Hr.
  assert (∀ d, forallb Lexer.isIdentChar (body ++ [d])
               = forallb Lexer.isIdentChar body && Lexer.isIdentChar d) as Hsnoc.
  { intros d. rewrite forallb_app. simpl. by rewrite andb_true_r. }
  assert (∀ d, c :: body ++ d :: rest = c :: (body ++ [d]) ++ rest) as Hassoc.
  { intros d. by rewrite <- app_assoc. }
  assert (Lexer.scanIdentifier left (c :: body ++ "-"%char :: rest)
          = Lexer.Failed Lexer.errTrailingDash) as Hdash.
  { rewrite Hassoc, scanIdentifier_run; [|done| |done].
    - by rewrite app_comm_cons, endsWithDash_snoc.
    - by rewrite Hsnoc, Hb. }
  split; [split; [done|split; [done|split]]|].
  - unfold Lexer.collect. rewrite text_chars, run_S.
    fold left. rewrite step_lineStart_word by done. fold left. by rewrite Hdash.
  - unfold Lexer.lexAttr. fold left. by rewrite Hdash.
  - intros d Hd.
    assert (Lexer.scanIdentifier left (c :: body ++ d :: rest)
            = Lexer.Scanned (c :: body ++ [d]) rest) as Hword.
    { rewrite Hassoc, scanIdentifier_run; [|done| |done].
      - rewrite app_comm_cons, endsWithDash_snoc.
        by destruct (isWordChar_not_special d Hd) as (_ & _ & _ & ->).
      - rewrite Hsnoc, Hb. unfold Lexer.isIdentChar. by rewrite Hd. }
    split; [done|].
    unfold Lexer.collect. rewrite text_chars, run_S.
    fold left. rewrite step_lineStart_word by done. fold left. rewrite Hword.
    simpl. by eexists.
Qed.

Lemma identifier_dash_rules_witness :
  let rest := chars_of " <<x>>" in
  (Lexer.isWordChar "t" = true
   ∧ forallb Lexer.isIdentChar (chars_of "ag-1") = true
   ∧ endsIdentifier (Lexer.leftDelim "") rest)
  ∧ Lexer.collect (text_of ("t"%char :: chars_of "ag-1" ++ "-"%char :: rest)) "" ""
    = [Lexer.tError "invalid character U+002D '-' at the end of the identifier"].
Proof.
  intros rest.
  assert (endsIdentifier (Lexer.leftDelim "") rest) as H by (by split).
  split; [by repeat split|].
  destruct (identifier_dash_rules "" "" "t" (chars_of "ag-1") rest eq_refl eq_refl H)
    as ((_ & _ & E & _) & _).
  exact E.
Defined.

(** C6: in multi-line mode the body runs up to the first line that is the
    close delimiter once its trailing spaces and tabs are dropped. Lines
    before it are body text whatever delimiters they contain, and a scan
    that ends a body has ended it at such a line. The input
    [tag <<], [<<>>], [>>] on three lines gives the tokens of the
    scenario. *)
Theorem multiline_body_ends_at_close_line (leftCfg rightCfg : string)
  (blanks : chars) (lines : list chars) (closing tail : chars) :
  let left := Lexer.leftDelim leftCfg in
  let right := Lexer.rightDelim rightCfg in
  forallb Lexer.isSpace blanks = true →
  Forall (λ l, isLine l ∧ Lexer.trimRight l ≠ right) lines →
  isLine closing →
  Lexer.trimRight closing = right →
  tail = [] ∨ (∃ t, tail = newline :: t) →
  Lexer.scanMultiline right None [] (join_with newline (lines ++ [closing]) ++ tail)
    = Lexer.Scanned (bodyOf lines) tail
  ∧ Lexer.lexBody left right
      (blanks ++ newline :: join_with newline (lines ++ [closing]) ++ tail)
    = Lexer.lexAfterBody
        ([Lexer.mkToken Lexer.tokenLeftDelim (text_of left); Lexer.tNewline]
         ++ Lexer.bodyTokens (bodyOf lines)
         ++ [Lexer.mkToken Lexer.tokenRightDelim (text_of right)]) tail
  ∧ (∀ s body rest,
       Lexer.scanMultiline right None [] s = Lexer.Scanned body rest →
       ∃ lines' closing',
         s = join_with newline (lines' ++ [closing']) ++ rest
         ∧ Forall (λ l, isLine l ∧ Lexer.trimRight l ≠ right) lines'
         ∧ isLine closing' ∧ Lexer.trimRight closing' = right
         ∧ body = bodyOf lines')
  ∧ Lexer.collect
      (text_of (chars_of "tag <<" ++ newline :: chars_of "<<>>"
                ++ newline :: chars_of ">>")) "" ""
    = [Lexer.mkToken Lexer.tokenIdentifier "tag"; Lexer.tSpace; Lexer.tBodyLeft;
       Lexer.tNewline; Lexer.mkToken Lexer.tokenBody "<<>>"; Lexer.tNewline;
       Lexer.tBodyRight; Lexer.tEOF].
Proof.
  intros left right Hblanks Hlines Hclosing Hclose Htail.
  assert (Lexer.scanMultiline right None []
            (join_with newline (lines ++ [closing]) ++ tail)
          = Lexer.Scanned (bodyOf lines) tail) as Hscan.
  { rewrite <- addLine_bodyOf. by apply scanMultiline_lines. }
  split; [done|]. split; [by apply lexBody_multiline|]. split; [|done].
  intros s body rest Hs.
  apply scanMultiline_inv in Hs as (ls & cl & E & Hl & Hc & Ht & _ & Hb);
    [|apply not_elem_of_nil].
  exists ls, cl. rewrite addLine_bodyOf in Hb. by repeat split.
Qed.

Lemma multiline_body_ends_at_close_line_witness :
  let lines := [chars_of "a >> b"; chars_of "<<>>"; chars_of " >>"] in
  let closing := chars_of ">>  " in
  let tail := newline :: chars_of "next" in
  (forallb Lexer.isSpace [tab] = true
   ∧ Forall (λ l, isLine l ∧ Lexer.trimRight l ≠ Lexer.rightDelim "") lines
   ∧ isLine closing
   ∧ Lexer.trimRight closing = Lexer.rightDelim ""
   ∧ (tail = [] ∨ ∃ t, tail = newline :: t))
  ∧ Lexer.scanMultiline (Lexer.rightDelim "") None []
      (join_with newline (lines ++ [closing]) ++ tail)
    = Lexer.Scanned (bodyOf lines) tail.
Proof.
  intros lines closing tail.
  assert (∀ l : chars, forallb (λ c, negb (Ascii.eqb c newline)) l = true → isLine l)
    as Hline.
  { intros l. induction l as [|c l IH]; simpl; [intros _; apply not_elem_of_nil|].
    intros [Hc Hl]%andb_true_iff. apply not_elem_of_cons. split; [|by apply IH].
    intros <-. by rewrite Ascii.eqb_refl in Hc. }
  assert (Forall (λ l, isLine l ∧ Lexer.trimRight l ≠ Lexer.rightDelim "") lines) as H2.
  { repeat constructor; try (by apply Hline); discriminate. }
  assert (isLine closing) as H3 by (by apply Hline).
  assert (tail = [] ∨ ∃ t, tail = newline :: t) as H5 by (right; by eexists).
  split; [by repeat split|].
  exact (proj1 (multiline_body_ends_at_close_line "" "" [tab] lines closing tail
                  eq_refl H2 H3 eq_refl H5)).
Defined.

(** * Properties of the path helper *)

Section PathFacts.

Import filepath Generator.

Lemma split_on_app sep a b :
  split_on sep (a ++ sep :: b) = split_on sep a ++ split_on sep b.
Proof.
  induction a as [|c a IH]; simpl.
  - by rewrite Ascii.eqb_refl.
  - destruct (Ascii.eqb c sep); [by rewrite IH|].
    rewrite IH. pose proof (split_on_nonempty sep a) as Hne.
    by destruct (split_on sep a).
Qed.

Lemma split_on_piece sep (l : chars) : sep ∉ l → split_on sep l = [l].
Proof.
  induction l as [|c l IH]; simpl; [done|].
  intros [Hc Hl]%not_elem_of_cons.
  destruct (Ascii.eqb c sep) eqn:E.
  - apply Ascii.eqb_eq in E. by subst.
  - by rewrite IH.
Qed.

Lemma split_join sep ls :
  ls ≠ [] → Forall (λ l, sep ∉ l) ls → split_on sep (join_with sep ls) = ls.
Proof.
  induction ls as [|l ls IH]; intros Hne Hall; [done|].
  apply Forall_cons in Hall as [Hl Hls].
  destruct ls as [|l2 ls].
  - by apply split_on_piece.
  - rewrite join_with_cons, split_on_app, split_on_piece, IH by done. done.
Qed.

Lemma replicate_snoc {A} k (x : A) : replicate k x ++ [x] = replicate (S k) x.
Proof. induction k as [|k IH]; simpl; [done|]. by rewrite IH. Qed.

Lemma isRealElem_sep e : isRealElem e → Separator ∉ e.
Proof. by intros (_ & _ & _ & H). Qed.

Lemma cleanStep_real rooted out e :
  isRealElem e → cleanStep rooted out e = out ++ [e].
Proof.
  intros (H1 & H2 & H3 & _). unfold cleanStep. by repeat case_decide.
Qed.

Lemma fold_real rooted elems : ∀ out,
  Forall isRealElem elems → foldl (cleanStep rooted) out elems = out ++ elems.
Proof.
  induction elems as [|e elems IH]; intros out Hall; simpl.
  - by rewrite app_nil_r.
  - apply Forall_cons in Hall as [He Hall].
    rewrite cleanStep_real, IH by done. by rewrite <- app_assoc.
Qed.

Lemma last_replicate_dotdot k : last (replicate (S k) dotdot) = Some dotdot.
Proof. by rewrite <- replicate_snoc, last_snoc. Qed.

Lemma cleanStep_dotdot_front k :
  cleanStep false (replicate k dotdot) dotdot = replicate (S k) dotdot.
Proof.
  unfold cleanStep. repeat (case_decide; try done).
  destruct k as [|k]; [done|].
  rewrite last_replicate_dotdot. case_decide; [|done]. apply replicate_snoc.
Qed.

Lemma fold_dotdots k : ∀ j,
  foldl (cleanStep false) (replicate j dotdot) (replicate k dotdot)
  = replicate (j + k) dotdot.
Proof.
  induction k as [|k IH]; intros j; simpl.
  - by rewrite Nat.add_0_r.
  - rewrite cleanStep_dotdot_front, IH. f_equal. lia.
Qed.

Lemma cleanStep_shape rooted out e :
  Separator ∉ e → cleanShape rooted out → cleanShape rooted (cleanStep rooted out e).
Proof.
  intros He (k & elems & -> & Hreal & Hk). unfold cleanStep.
  case_decide as H1; [by exists k, elems|].
  case_decide as H2; [by exists k, elems|].
  case_decide as H3.
  - induction elems as [|x elems _] using rev_ind.
    + rewrite app_nil_r. destruct k as [|k].
      * simpl. destruct rooted; [by exists 0%nat, []|].
        exists 1%nat, []. by repeat split.
      * rewrite last_replicate_dotdot.
        case_decide; [|done]. destruct rooted; [by specialize (Hk eq_refl)|].
        exists (S (S k)), []. rewrite app_nil_r.
        split; [by rewrite replicate_snoc|]. by split.
    + rewrite app_assoc, last_snoc. apply Forall_app in Hreal as [Hreal Hx].
      rewrite Forall_singleton in Hx. case_decide as Hxd.
      * by destruct Hx as (_ & _ & Hx & _).
      * rewrite removelast_last. by exists k, elems.
  - exists k, (elems ++ [e]). rewrite app_assoc. split; [done|].
    split; [|done]. apply Forall_app. split; [done|]. by apply Forall_singleton.
Qed.

Lemma cleanElems_shape p : cleanShape (isRooted p) (cleanElems p).
Proof.
  unfold cleanElems. generalize (isRooted p). intros b.
  pose proof (split_on_pieces Separator p) as Hp.
  assert (cleanShape b []) as H0 by (exists 0%nat, []; by repeat split).
  revert H0. generalize (@nil chars).
  induction Hp as [|e es He Hes IH]; intros out Hout; simpl; [done|].
  by apply IH, cleanStep_shape.
Qed.

Lemma Clean_render p : Clean p = render (isRooted p) (cleanElems p).
Proof.
  unfold Clean, render. case_decide as Hp; [by subst|]. done.
Qed.

Lemma isRooted_app x y : x ≠ [] → isRooted (x ++ y) = isRooted x.
Proof. by destruct x. Qed.

Lemma isRooted_no_sep x : Separator ∉ x → isRooted x = false.
Proof.
  destruct x as [|c x]; [done|]. intros [Hc _]%not_elem_of_cons. simpl.
  destruct (Ascii.eqb c Separator) eqn:E; [|done]. apply Ascii.eqb_eq in E. by subst.
Qed.

Lemma dotdot_no_sep : Separator ∉ dotdot.
Proof.
  unfold dotdot. simpl. rewrite !not_elem_of_cons. repeat split; try done.
  apply not_elem_of_nil.
Qed.

Lemma cleanShape_pieces b out :
  cleanShape b out → Forall (λ e, e ≠ [] ∧ Separator ∉ e) out.
Proof.
  intros (k & elems & -> & Hreal & _). apply Forall_app. split.
  - apply Forall_replicate. split; [done|apply dotdot_no_sep].
  - eapply Forall_impl; [exact Hreal|]. by intros e (? & _ & _ & ?).
Qed.

Lemma join_with_unrooted out :
  Forall (λ e, e ≠ [] ∧ Separator ∉ e) out →
  isRooted (join_with Separator out) = false.
Proof.
  destruct out as [|e out]; [done|]. intros [[He Hs] _]%Forall_cons.
  destruct out as [|e2 out].
  - by apply isRooted_no_sep.
  - rewrite join_with_cons, isRooted_app by done. by apply isRooted_no_sep.
Qed.

Lemma render_rooted b out : cleanShape b out → isRooted (render b out) = b.
Proof.
  intros Hs. unfold render. destruct b; [done|].
  destruct out as [|e out]; [done|].
  by eapply join_with_unrooted, cleanShape_pieces.
Qed.

Lemma split_join_pieces out :
  out ≠ [] → Forall (λ e, e ≠ [] ∧ Separator ∉ e) out →
  split_on Separator (join_with Separator out) = out.
Proof.
  intros Hne Hall. apply split_join; [done|].
  eapply Forall_impl; [exact Hall|]. by intros e [_ ?].
Qed.

Lemma fold_shape out :
  cleanShape false out → foldl (cleanStep false) [] out = out.
Proof.
  intros (k & elems & -> & Hreal & _). rewrite foldl_app.
  change (@nil chars) with (replicate 0 dotdot) at 1.
  by rewrite fold_dotdots, fold_real.
Qed.

Lemma cleanElems_render b out :
  cleanShape b out → cleanElems (render b out) = out.
Proof.
  intros Hs. unfold cleanElems. rewrite render_rooted by done.
  pose proof (cleanShape_pieces _ _ Hs) as Hp.
  unfold render. destruct b.
  - destruct Hs as (k & elems & -> & Hreal & Hk). rewrite (Hk eq_refl) in *.
    simpl replicate in *. simpl app in *.
    change (split_on Separator (Separator :: join_with Separator elems))
      with ([] :: split_on Separator (join_with Separator elems)).
    destruct elems as [|e elems]; [done|].
    rewrite split_join_pieces by done.
    change (foldl (cleanStep true) [] ([] :: e :: elems))
      with (foldl (cleanStep true) [] (e :: elems)).
    by rewrite fold_real.
  - destruct out as [|e out]; [done|].
    rewrite split_join_pieces by done. by apply fold_shape.
Qed.

Lemma stripLoop_dotdots k elems :
  Forall isRealElem elems →
  stripLoop (replicate k dotdot ++ elems) (replicate k dotdot ++ elems) = elems.
Proof.
  intros Hreal. induction k as [|k IH]; simpl.
  - destruct elems as [|e elems]; [done|]. simpl.
    apply Forall_cons in Hreal as [(_ & _ & He & _) _]. by case_decide.
  - exact IH.
Qed.

Lemma cleanShape_app b out elems :
  cleanShape b out → Forall isRealElem elems → cleanShape b (out ++ elems).
Proof.
  intros (k & elems0 & -> & Hreal & Hk) He. exists k, (elems0 ++ elems).
  rewrite app_assoc. split; [done|]. split; [|done]. by apply Forall_app.
Qed.

Lemma cleanShape_real b elems : Forall isRealElem elems → cleanShape b elems.
Proof. intros H. by exists 0%nat, elems. Qed.

Lemma cleanElems_join root x :
  root ≠ [] →
  cleanElems (root ++ Separator :: x)
  = foldl (cleanStep (isRooted root)) (cleanElems root) (split_on Separator x).
Proof.
  intros Hroot. unfold cleanElems.
  by rewrite isRooted_app, split_on_app, foldl_app by done.
Qed.

Lemma Join_two root x :
  Join [root; x] =
  if decide (root = []) then (if decide (x = []) then [] else Clean x)
  else Clean (root ++ Separator :: x).
Proof. simpl. by repeat case_decide. Qed.

(** Joining below [root] a path whose pieces clean to ordinary elements. *)
Lemma Join_within root x elems :
  (∀ b out, foldl (cleanStep b) out (split_on Separator x) = out ++ elems) →
  Forall isRealElem elems →
  root ≠ [] ∨ isRooted x = false →
  within root (Join [root; x]).
Proof.
  intros Hx Hreal Hor. rewrite Join_two. case_decide as Hroot.
  - destruct Hor as [?|Hrel]; [done|]. case_decide as Hxe.
    + split; [by subst|]. exists []. subst. by rewrite app_nil_r.
    + rewrite Clean_render, Hrel. unfold cleanElems at 1. rewrite Hrel, Hx.
      rewrite app_nil_l. subst root.
      pose proof (cleanShape_real false elems Hreal) as Hs. split.
      * by rewrite render_rooted.
      * exists elems. split; [done|]. by rewrite cleanElems_render.
  - rewrite Clean_render, isRooted_app, cleanElems_join, Hx by done.
    pose proof (cleanShape_app _ _ _ (cleanElems_shape root) Hreal) as Hs. split.
    + by rewrite render_rooted.
    + exists elems. split; [done|]. by rewrite cleanElems_render.
Qed.

Lemma joinWithinRoot_parts rel :
  isRooted rel = false →
  let parts := split_on Separator (Clean rel) in
  ∃ k, parts = replicate k dotdot ++ stripLoop parts parts
       ∧ Forall (λ part, part ≠ dotdot) (stripLoop parts parts)
       ∧ ((stripLoop parts parts = [dot] ∧ k = 0%nat)
          ∨ Forall isRealElem (stripLoop parts parts)).
Proof.
  intros Hrel parts. unfold parts. rewrite Clean_render, Hrel.
  pose proof (cleanElems_shape rel) as Hs. rewrite Hrel in Hs.
  pose proof (cleanShape_pieces _ _ Hs) as Hp.
  destruct (cleanElems rel) as [|e out] eqn:E.
  - exists 0%nat. simpl. split; [done|]. split; [|by left]. by repeat constructor.
  - unfold render. rewrite split_join_pieces by done.
    destruct Hs as (k & elems & -> & Hreal & _). exists k.
    rewrite stripLoop_dotdots by done. split; [done|]. split; [|by right].
    eapply Forall_impl; [exact Hreal|]. by intros x (_ & _ & ? & _).
Qed.

Lemma joinWithinRoot_within root rel :
  root ≠ [] ∨ isRooted rel = false → within root (joinWithinRoot root rel).
Proof.
  intros Hor. unfold joinWithinRoot. cbv zeta.
  destruct (isRooted rel) eqn:Hrel.
  - destruct Hor as [Hroot|?]; [|done].
    pose proof (cleanElems_shape rel) as (k & elems & E & Hreal & Hk).
    rewrite Hrel in Hk. rewrite (Hk eq_refl) in E. simpl in E.
    rewrite Clean_render, Hrel, E. unfold render.
    change (split_on Separator (Separator :: join_with Separator elems))
      with ([] :: split_on Separator (join_with Separator elems)).
    simpl stripLoop.
    assert (Forall (λ e, e ≠ [] ∧ Separator ∉ e) elems) as Hp.
    { eapply Forall_impl; [exact Hreal|]. by intros e (? & _ & _ & ?). }
    destruct elems as [|e elems].
    + apply (Join_within _ _ []); [|done|by left].
      intros b out. simpl. by rewrite app_nil_r.
    + rewrite split_join_pieces by done.
      apply (Join_within _ _ (e :: elems)); [|done|by left].
      intros b out.
      change (join_with Separator ([] :: e :: elems))
        with (Separator :: join_with Separator (e :: elems)).
      change (split_on Separator (Separator :: join_with Separator (e :: elems)))
        with ([] :: split_on Separator (join_with Separator (e :: elems))).
      rewrite split_join_pieces by done.
      change (foldl (cleanStep b) out ([] :: e :: elems))
        with (foldl (cleanStep b) out (e :: elems)).
      by apply fold_real.
  - destruct (joinWithinRoot_parts rel Hrel) as (k & _ & _ & Hcase).
    set (parts := split_on Separator (Clean rel)) in *.
    destruct Hcase as [[-> _]|Hreal].
    + apply (Join_within _ _ []); [|done|by right].
      intros b out. simpl. by rewrite app_nil_r.
    + assert (Forall (λ e, e ≠ [] ∧ Separator ∉ e) (stripLoop parts parts)) as Hp.
      { eapply Forall_impl; [exact Hreal|]. by intros e (? & _ & _ & ?). }
      apply (Join_within _ _ (stripLoop parts parts)); [|done|].
      * intros b out. destruct (stripLoop parts parts) as [|e elems].
        { simpl. by rewrite app_nil_r. }
        rewrite split_join_pieces by done. by apply fold_real.
      * right. by apply join_with_unrooted.
Qed.

End PathFacts.

(** C9: for a relative path, what [joinWithinRoot] returns is inside
    [root]: it is rooted exactly when [root] is, and its elements are those
    of the cleaned [root] followed by ordinary elements only. The parts of
    the cleaned relative path are [..] elements followed by the parts the
    loop keeps, none of which is [..], and the result is [root] joined
    with the kept parts. *)
Theorem joinWithinRoot_contained (root relpath : chars) :
  filepath.isRooted relpath = false →
  let parts := split_on filepath.Separator (filepath.Clean relpath) in
  let kept := Generator.stripLoop parts parts in
  within root (Generator.joinWithinRoot root relpath)
  ∧ (∃ k, parts = replicate k filepath.dotdot ++ kept)
  ∧ Forall (λ part, part ≠ filepath.dotdot) kept
  ∧ Generator.joinWithinRoot root relpath
    = filepath.Join [root; join_with filepath.Separator kept].
Proof.
  intros Hrel parts kept. split; [apply joinWithinRoot_within; by right|].
  destruct (joinWithinRoot_parts relpath Hrel) as (k & E & Hkept & _).
  split; [by exists k|]. by split.
Qed.

Lemma joinWithinRoot_contained_witness :
  let root := chars_of "out/dir" in
  let relpath := chars_of "a/../../../etc/./passwd" in
  filepath.isRooted relpath = false
  ∧ within root (Generator.joinWithinRoot root relpath)
  ∧ Generator.joinWithinRoot root relpath = chars_of "out/dir/etc/passwd".
Proof.
  intros root relpath. split; [reflexivity|]. split; [|reflexivity].
  exact (proj1 (joinWithinRoot_contained root relpath eq_refl)).
Defined.

(** With an empty root a rooted path comes back as it is, so the premise
    on the path, or a root that is not empty, is needed. *)
Example joinWithinRoot_empty_root_rooted_path :
  Generator.joinWithinRoot [] (chars_of "/etc") = chars_of "/etc".
Proof. reflexivity. Qed.

(** * More properties of the assembler *)

Section AssemblerMore.

Import Template Spec.

Variable wrap : string → string.

Local Abbreviation parseTag := (Template.parseTag wrap).
Local Abbreviation parseFrom := (Template.parseFrom wrap).
Local Abbreviation parseLogged := (Template.parseLogged wrap).
Local Abbreviation parse := (Template.parse wrap).
Local Abbreviation script := (Template.parseScriptBody wrap).

Ltac tag_names :=
  repeat (case_decide; try done; try (exfalso; by eauto)).

Ltac tag_cases :=
  unfold Template.parseTag, parseTagNameAttr;
  repeat first
    [ case_decide
    | match goal with
      | |- context [match TagBody ?t with _ => _ end] => destruct (TagBody t) eqn:?
      end ].

(** [vars.find] returns -1 exactly when no entry has the key, and otherwise
    the index of the first entry that has it. *)
Theorem find_first_index (v : vars) (key : string) :
  (find v key = -1 ↔ key ∉ v.*1)
  ∧ (key ∈ v.*1 ↔
     ∃ k x, find v key = Z.of_nat k ∧ v !! k = Some (key, x)
            ∧ ∀ j y, v !! j = Some y → (j < k)%nat → y.1 ≠ key).
Proof.
  split.
  - split; [|apply find_absent]. intros Hf Hin.
    destruct (find_present v key Hin) as (k & x & E & _). lia.
  - split; [apply find_present|]. intros (k & x & _ & Hk & _).
    apply list_elem_of_fmap. exists (key, x). split; [done|].
    by eapply list_elem_of_lookup_2.
Qed.

(** [setPartial] stores the value under the name and touches nothing else:
    the other partials, the variables and the scalar fields stay, and the
    log grows, by the one line about the overwrite, exactly when the name
    was there before. *)
Theorem setPartial_lookup (name val : string) (m : Markup) (log : list LogEntry) :
  let s' := setPartial name val (m, log) in
  Partials s'.1 !! name = Some val
  ∧ (∀ other, other ≠ name → Partials s'.1 !! other = Partials m !! other)
  ∧ Vars s'.1 = Vars m
  ∧ (Filename s'.1, Skip s'.1, MBody s'.1) = (Filename m, Skip m, MBody m)
  ∧ s'.2 = (if decide (is_Some (Partials m !! name))
            then log ++ [LogPartialExists name] else log).
Proof.
  simpl. split; [apply lookup_insert_eq|].
  split; [intros other Hne; by apply lookup_insert_ne|].
  split; [done|]. split; [done|].
  destruct (Partials m !! name) as [old|] eqn:E; case_decide as H; try done.
  exfalso. apply H. by eexists.
Qed.

(** A tag whose name is none of the five reserved names changes neither
    the document nor the log; so assembling a tag list gives what
    assembling its reserved tags alone gives. *)
Lemma parseTag_unknown s t : Name t ∉ reservedNames → parseTag s t = s.
Proof.
  intros Hn. unfold reservedNames in Hn. rewrite !not_elem_of_cons in Hn.
  destruct Hn as (H1 & H2 & H3 & H4 & H5 & _). destruct s as [m log].
  unfold Template.parseTag. tag_names. exfalso. tauto.
Qed.

Theorem unknown_tags_ignored (s : state) (ts : list TagNode) :
  parseFrom s (filter (λ t, Name t ∈ reservedNames) ts) = parseFrom s ts.
Proof.
  revert s. induction ts as [|t ts IH]; intros s; [done|].
  rewrite filter_cons. case_decide as Hn.
  - change (parseFrom (parseTag s t) (filter (λ t, Name t ∈ reservedNames) ts)
            = parseFrom (parseTag s t) ts). apply IH.
  - change (parseFrom s (t :: ts)) with (parseFrom (parseTag s t) ts).
    rewrite parseTag_unknown by done. apply IH.
Qed.

(** A tag changes at most the part of the document that belongs to its
    name: every field survives a tag of another name. *)
Theorem tag_changes_own_field_only (s : state) (t : TagNode) :
  let s' := parseTag s t in
  (Name t ≠ tagFilename → Filename s'.1 = Filename s.1)
  ∧ (Name t ≠ tagSkip → Skip s'.1 = Skip s.1)
  ∧ (Name t ≠ tagTemplate → MBody s'.1 = MBody s.1)
  ∧ (Name t ≠ tagVariable → Vars s'.1 = Vars s.1)
  ∧ (Name t ≠ tagPartial → Partials s'.1 = Partials s.1).
Proof.
  destruct s as [m log]. cbv zeta.
  repeat split; intros Hn; tag_cases; simpl; try done;
    try (exfalso; tauto);
    unfold setVar; by case_decide.
Qed.

(** ** The last definition wins *)

Lemma last_filter_snoc {A} (P : A → Prop) `{∀ x, Decision (P x)} (l : list A) x :
  last (filter P (l ++ [x])) = if decide (P x) then Some x else last (filter P l).
Proof.
  rewrite filter_app, filter_cons, filter_nil. case_decide.
  - by rewrite last_snoc.
  - by rewrite app_nil_r.
Qed.

Lemma parse_snoc ts t : parseLogged (ts ++ [t]) = parseTag (parseLogged ts) t.
Proof. unfold Template.parseLogged. apply parseFrom_snoc. Qed.

Lemma parseTag_definedPartial s t n :
  definedPartial t = Some n → parseTag s t = setPartial n (parseBody t) s.
Proof.
  unfold definedPartial. case_decide as H; [|done]. intros [= <-].
  destruct H as (Hname & Hn & [b Hb]). destruct s as [m log].
  unfold Template.parseTag, parseTagNameAttr. rewrite Hname, Hb.
  rewrite <- length_zero_empty in Hn. tag_names.
Qed.

Lemma parseTag_not_definedPartial s t :
  definedPartial t = None → Partials (parseTag s t).1 = Partials s.1.
Proof.
  unfold definedPartial. case_decide as H; [done|]. intros _. destruct s as [m log].
  tag_cases; simpl; try done.
  - exfalso. apply H. rewrite <- length_zero_empty. eauto.
  - unfold setVar. by case_decide.
Qed.

(** The partials of the assembled document are, name by name, the bodies
    of the last [partial] tags that define the names; a name no tag
    defines has no partial. *)
Theorem partials_hold_last_definitions (ts : list TagNode) (n : string) :
  Partials (parse ts) !! n = parseBody <$> lastDefining definedPartial ts n.
Proof.
  unfold lastDefining, Template.parse.
  induction ts as [|t ts IH] using rev_ind; [done|].
  rewrite parse_snoc, last_filter_snoc.
  destruct (definedPartial t) as [n'|] eqn:E.
  - rewrite (parseTag_definedPartial _ _ _ E).
    destruct (parseLogged ts) as [m log]. simpl in *.
    case_decide as Hn.
    + injection Hn as ->. apply lookup_insert_eq.
    + rewrite lookup_insert_ne by congruence. apply IH.
  - rewrite parseTag_not_definedPartial by done. by case_decide.
Qed.

Lemma elem_of_vars_insert (v : vars) k n x n' y val :
  v !! k = Some (n', x) → n ≠ n' →
  (n, y) ∈ <[k := (n', val)]> v ↔ (n, y) ∈ v.
Proof.
  intros Hk Hne. rewrite !list_elem_of_lookup. split; intros [j Hj]; exists j.
  - destruct (decide (j = k)) as [->|Hjk].
    + rewrite list_lookup_insert_eq in Hj by (by eapply lookup_lt_Some). congruence.
    + by rewrite list_lookup_insert_ne in Hj.
  - destruct (decide (j = k)) as [->|Hjk]; [congruence|].
    by rewrite list_lookup_insert_ne.
Qed.

Lemma elem_of_setVar_other n' val s n y :
  n ≠ n' → (n, y) ∈ Vars (setVar n' val s).1 ↔ (n, y) ∈ Vars s.1.
Proof.
  intros Hne. destruct s as [m log].
  destruct (decide (n' ∈ names m)) as [Hin|Hin].
  - destruct (find_present _ _ Hin) as (k & x & Hf & Hk & _).
    unfold setVar. rewrite Hf. case_decide; [|lia]. rewrite Nat2Z.id. simpl.
    by eapply elem_of_vars_insert.
  - rewrite setVar_fresh by done. simpl. rewrite elem_of_app, list_elem_of_singleton.
    split; [intros [?|?]; [done|congruence]|by left].
Qed.

Lemma elem_of_setVar_same n val s y :
  NoDup (names s.1) → (n, y) ∈ Vars (setVar n val s).1 ↔ y = val.
Proof.
  intros Hnd. destruct s as [m log].
  destruct (decide (n ∈ names m)) as [Hin|Hin].
  - destruct (find_present _ _ Hin) as (k & x & Hf & Hk & _).
    rewrite (setVar_known _ _ _ _ k x Hnd Hk). simpl.
    rewrite list_elem_of_lookup. split.
    + intros [j Hj]. destruct (decide (j = k)) as [->|Hjk].
      * rewrite list_lookup_insert_eq in Hj by (by eapply lookup_lt_Some). congruence.
      * rewrite list_lookup_insert_ne in Hj by done. exfalso. apply Hjk.
        apply (NoDup_lookup (names m) j k n Hnd); unfold names;
          rewrite list_lookup_fmap; [by rewrite Hj|by rewrite Hk].
    + intros ->. exists k. apply list_lookup_insert_eq. by eapply lookup_lt_Some.
  - rewrite setVar_fresh by done. simpl. rewrite elem_of_app, list_elem_of_singleton.
    split; [|intros ->; by right]. intros [Hy|Hy]; [|congruence].
    exfalso. apply Hin. apply list_elem_of_fmap. by exists (n, y).
Qed.

(** The variables of the assembled document hold, for every name, the
    expression source of the last [variable] tag that defines the name,
    and nothing else: a name no tag defines has no entry. *)
Theorem vars_hold_last_definitions (ts : list TagNode) (n v : string) :
  (n, v) ∈ Vars (parse ts) ↔ script <$> lastDefining definedVar ts n = Some v.
Proof.
  unfold lastDefining, Template.parse. revert v.
  induction ts as [|t ts IH] using rev_ind; intros v.
  - simpl. split; [by intros ?%elem_of_nil|done].
  - rewrite parse_snoc, last_filter_snoc.
    assert (NoDup (names (parseLogged ts).1)) as Hnd.
    { apply NoDup_names_reachable, reachable_parseFrom. constructor. }
    destruct (definedVar t) as [n'|] eqn:E.
    + rewrite (parseTag_definedVar _ _ _ _ E). case_decide as Hn.
      * injection Hn as ->. rewrite elem_of_setVar_same by done. simpl.
        split; congruence.
      * rewrite elem_of_setVar_other by congruence. apply IH.
    + rewrite parseTag_not_definedVar by done. case_decide; [done|]. apply IH.
Qed.

Lemma lastNamed_snoc name ts t :
  lastNamed name (ts ++ [t]) = if decide (Name t = name) then Some t else lastNamed name ts.
Proof.
  unfold lastNamed. rewrite filter_app, filter_cons, filter_nil.
  case_decide; [by rewrite last_snoc|by rewrite app_nil_r].
Qed.

(** The scalar fields of the assembled document come from the last
    [filename], [skipif] and [template] tag; a field no tag sets is
    empty. *)
Theorem scalar_fields_hold_last_tags (ts : list TagNode) :
  Filename (parse ts) = default "" (script <$> lastNamed tagFilename ts)
  ∧ Skip (parse ts) = default "" (script <$> lastNamed tagSkip ts)
  ∧ MBody (parse ts) = default "" (parseBody <$> lastNamed tagTemplate ts).
Proof.
  unfold Template.parse. induction ts as [|t ts IH] using rev_ind; [done|].
  destruct IH as (IH1 & IH2 & IH3).
  rewrite parse_snoc, !lastNamed_snoc.
  pose proof (tag_changes_own_field_only (parseLogged ts) t) as (H1 & H2 & H3 & _).
  destruct (parseLogged ts) as [m log]. cbn [fst] in *.
  split; [|split]; case_decide as Hn.
  - unfold Template.parseTag. rewrite Hn. by tag_names.
  - by rewrite (H1 Hn).
  - unfold Template.parseTag. rewrite Hn. by tag_names.
  - by rewrite (H2 Hn).
  - unfold Template.parseTag. rewrite Hn. by tag_names.
  - by rewrite (H3 Hn).
Qed.

(** ** What the log accounts for *)

Lemma countLog_snoc p log entry :
  countLog p (log ++ [entry]) = (countLog p log + (if p entry then 1 else 0))%nat.
Proof.
  unfold countLog. rewrite List.filter_app, length_app. simpl.
  by destruct (p entry).
Qed.

Lemma parseTag_log_length m log t :
  (length (parseTag (m, log) t).2 ≤ S (length log))%nat.
Proof.
  tag_cases; simpl; rewrite ?length_app; simpl; try lia.
  - destruct (Partials m !! _); rewrite ?length_app; simpl; lia.
  - unfold setVar. case_decide; simpl; rewrite ?length_app; simpl; lia.
Qed.

Lemma parseTag_vars_accounting m log t :
  (length (Vars (parseTag (m, log) t).1) + countLog isVarExists (parseTag (m, log) t).2
   = length (Vars m) + countLog isVarExists log
     + match definedVar t with Some _ => 1 | None => 0 end)%nat.
Proof.
  destruct (definedVar t) as [n|] eqn:E.
  - rewrite (parseTag_definedVar _ _ _ _ E). unfold setVar. case_decide; simpl.
    + rewrite length_insert, countLog_snoc. simpl. lia.
    + rewrite length_app. simpl. lia.
  - rewrite parseTag_not_definedVar by done. simpl. rewrite Nat.add_0_r. f_equal.
    revert E. unfold definedVar. case_decide as H; [done|]. intros _.
    tag_cases; simpl; rewrite ?countLog_snoc; simpl; try lia.
    + destruct (Partials m !! _); rewrite ?countLog_snoc; simpl; lia.
    + exfalso. apply H. rewrite <- length_zero_empty. eauto.
Qed.

Lemma parseTag_partials_accounting m log t :
  (size (Partials (parseTag (m, log) t).1)
   + countLog isPartialExists (parseTag (m, log) t).2
   = size (Partials m) + countLog isPartialExists log
     + match definedPartial t with Some _ => 1 | None => 0 end)%nat.
Proof.
  destruct (definedPartial t) as [n|] eqn:E.
  - rewrite (parseTag_definedPartial _ _ _ E). simpl.
    destruct (Partials m !! n) as [old|] eqn:En.
    + rewrite map_size_insert_Some by eauto. rewrite countLog_snoc. simpl. lia.
    + rewrite map_size_insert_None by done. lia.
  - rewrite parseTag_not_definedPartial by done. simpl. rewrite Nat.add_0_r. f_equal.
    revert E. unfold definedPartial. case_decide as H; [done|]. intros _.
    tag_cases; simpl; rewrite ?countLog_snoc; simpl; try lia.
    all: try (exfalso; apply H; rewrite <- length_zero_empty; by eauto).
    all: unfold setVar; case_decide; simpl; rewrite ?countLog_snoc; simpl; lia.
Qed.

(** Every tag that defines a variable either adds an entry or is logged
    as overwriting one, and likewise for the partials; and no tag writes
    more than one line to the log. *)
Theorem every_definition_is_stored_or_logged (ts : list TagNode) :
  (length (Vars (parse ts)) + countLog isVarExists (parseLogged ts).2
   = length (omap definedVar ts))%nat
  ∧ (size (Partials (parse ts)) + countLog isPartialExists (parseLogged ts).2
     = length (omap definedPartial ts))%nat
  ∧ (length (parseLogged ts).2 ≤ length ts)%nat.
Proof.
  unfold Template.parse. induction ts as [|t ts IH] using rev_ind.
  - simpl. rewrite map_size_empty. done.
  - destruct IH as (IH1 & IH2 & IH3).
    rewrite parse_snoc, !omap_app, !length_app. simpl.
    pose proof (parseTag_vars_accounting (parseLogged ts).1 (parseLogged ts).2 t) as H1.
    pose proof (parseTag_partials_accounting (parseLogged ts).1 (parseLogged ts).2 t) as H2.
    pose proof (parseTag_log_length (parseLogged ts).1 (parseLogged ts).2 t) as H3.
    destruct (parseLogged ts) as [m log]. cbn [fst snd] in *.
    split; [|split].
    + rewrite H1, IH1. by destruct (definedVar t).
    + rewrite H2, IH2. by destruct (definedPartial t).
    + lia.
Qed.

End AssemblerMore.

(** * Properties of the registry *)

Section RegistryFacts.

Import Generators.

Context {Repository : Type} (Path : Repository → string).

Local Abbreviation AddRepository := (Generators.AddRepository Path).

(** [AddRepository] succeeds exactly when the path is not registered yet.
    A failed call leaves the registry as it is and returns an error that
    names the operation and the path; a successful call registers the
    repository under its path and changes no other entry; and adding the
    same repository once more always fails. *)
Theorem AddRepository_adds_once (r : Registry) (repo : Repository) :
  let r1 := (AddRepository r repo).1 in
  ((AddRepository r repo).2 = None ↔ Repos r !! Path repo = None)
  ∧ (∀ e, (AddRepository r repo).2 = Some e →
          r1 = r ∧ e = mkPathError "add repository" (Path repo) "already exists")
  ∧ Repos r1 !! Path repo
    = Some (default repo (Repos r !! Path repo))
  ∧ (∀ p, p ≠ Path repo → Repos r1 !! p = Repos r !! p)
  ∧ is_Some ((AddRepository r1 repo).2) ∧ (AddRepository r1 repo).1 = r1.
Proof.
  unfold Generators.AddRepository at 1 2 3 4 5.
  destruct (Repos r !! Path repo) as [old|] eqn:E; simpl.
  - split; [done|]. split; [by intros e [= <-]|]. split; [done|].
    split; [done|]. unfold Generators.AddRepository. rewrite E. simpl. eauto.
  - split; [done|]. split; [done|]. split; [apply lookup_insert_eq|].
    split; [intros p Hp; by apply lookup_insert_ne|].
    unfold Generators.AddRepository. simpl. rewrite lookup_insert_eq. simpl. eauto.
Qed.

Lemma addAll_snoc (r : Registry) repos repo :
  addAll Path r (repos ++ [repo])
  = (let acc := addAll Path r repos in
     ((AddRepository acc.1 repo).1, acc.2 ++ option_list (AddRepository acc.1 repo).2)).
Proof.
  unfold addAll. rewrite foldl_app. simpl.
  by destruct (Generators.AddRepository Path _ repo).
Qed.

Lemma head_filter_snoc {A} (P : A → Prop) `{∀ x, Decision (P x)} (l : list A) x :
  head (filter P (l ++ [x]))
  = match head (filter P l) with
    | Some y => Some y
    | None => if decide (P x) then Some x else None
    end.
Proof.
  rewrite filter_app, filter_cons, filter_nil.
  destruct (filter P l) as [|y l']; simpl; [by case_decide|done].
Qed.

(** The registry never overwrites: after adding a list of repositories to
    the empty registry, every path holds the first repository of the list
    with that path; each call either registered a repository or returned
    an error. *)
Theorem registry_keeps_first (repos : list Repository) (p : string) :
  Repos (addAll Path NewRegistry repos).1 !! p
    = head (filter (λ repo, Path repo = p) repos)
  ∧ (size (Repos (addAll Path NewRegistry repos).1)
     + length (addAll Path NewRegistry repos).2 = length repos)%nat.
Proof.
  revert p. assert (∀ p, Repos (addAll Path NewRegistry repos).1 !! p
                         = head (filter (λ repo, Path repo = p) repos)
                    ) as Hlook.
  { induction repos as [|repo repos IH] using rev_ind; intros p; [done|].
    rewrite addAll_snoc. cbv zeta. cbn [fst].
    rewrite (head_filter_snoc (λ repo0, Path repo0 = p)), <- IH.
    unfold Generators.AddRepository.
    destruct (Repos (addAll Path NewRegistry repos).1 !! Path repo) as [old|] eqn:E;
      simpl.
    - destruct (Repos (addAll Path NewRegistry repos).1 !! p) eqn:Ep; [done|].
      case_decide; congruence.
    - case_decide as Hp.
      + subst p. by rewrite lookup_insert_eq, E.
      + rewrite lookup_insert_ne by done.
        by destruct (Repos (addAll Path NewRegistry repos).1 !! p). }
  intros p. split; [apply Hlook|]. clear Hlook.
  induction repos as [|repo repos IH] using rev_ind.
  - simpl. by rewrite map_size_empty.
  - rewrite addAll_snoc. cbv zeta. cbn [fst snd].
    rewrite !length_app. simpl. unfold Generators.AddRepository.
    destruct (Repos (addAll Path NewRegistry repos).1 !! Path repo) as [old|] eqn:E;
      simpl.
    + lia.
    + rewrite map_size_insert_None by done. lia.
Qed.

End RegistryFacts.

(** * More properties of the path helpers *)

Section PathMore.

Import filepath filepathx Generator Runner.

(** ** Normalized paths *)

Lemma cleanStep_keeps_front out e :
  ∃ out', cleanStep false (dotdot :: out) e = dotdot :: out'.
Proof.
  unfold cleanStep. repeat case_decide; eauto.
  - destruct out as [|x out] using rev_ind.
    + simpl. by eexists.
    + rewrite app_comm_cons, last_snoc. case_decide.
      * by eexists.
      * rewrite removelast_last. by eexists.
Qed.

Lemma fold_keeps_front xs : ∀ out,
  ∃ out', foldl (cleanStep false) (dotdot :: out) xs = dotdot :: out'.
Proof.
  induction xs as [|x xs IH]; intros out; simpl; [by eexists|].
  destruct (cleanStep_keeps_front out x) as [out1 ->]. apply IH.
Qed.

(** Cleaning below a prefix: elements that clean, on their own, to
    ordinary elements clean to the same elements behind any prefix. *)
Lemma fold_prefix xs : ∀ b out0 cur res,
  Forall (λ x, Separator ∉ x) xs →
  Forall isRealElem cur →
  foldl (cleanStep false) cur xs = res →
  Forall isRealElem res →
  foldl (cleanStep b) (out0 ++ cur) xs = out0 ++ res.
Proof.
  induction xs as [|x xs IH]; intros b out0 cur res Hxs Hcur Hres Hreal.
  - simpl in *. by subst.
  - apply Forall_cons in Hxs as [Hx Hxs]. cbn [foldl] in *.
    assert (cleanStep b (out0 ++ cur) x = out0 ++ cleanStep false cur x
            ∧ Forall isRealElem (cleanStep false cur x)) as [E Hcur'].
    { unfold cleanStep. case_decide as H1; [done|]. case_decide as H2; [done|].
      case_decide as H3.
      - destruct cur as [|e cur _] using rev_ind.
        + exfalso. subst x. simpl in Hres.
          destruct (fold_keeps_front xs []) as [out' E']. 
          change (cleanStep false [] dotdot) with [dotdot] in Hres.
          rewrite E' in Hres. subst res.
          apply Forall_cons in Hreal as [(_ & _ & Hdd & _) _]. done.
        + rewrite app_assoc, !last_snoc. apply Forall_app in Hcur as [Hcur He].
          rewrite Forall_singleton in He. destruct He as (_ & _ & He & _).
          case_decide; [done|]. rewrite !removelast_last. done.
      - split; [by rewrite app_assoc|]. apply Forall_app. split; [done|].
        by apply Forall_singleton. }
    rewrite E. by apply IH.
Qed.

Lemma replicate_dotdot_elem k : (0 < k)%nat → dotdot ∈ replicate k dotdot.
Proof. destruct k; [lia|]. intros _. simpl. by left. Qed.

(** A cleaned relative path without [.] and [..] among its parts: the parts
    are its cleaned elements, and all are ordinary. *)
Lemma plain_parts p :
  isRooted p = false →
  dot ∉ split_on Separator (Clean p) →
  dotdot ∉ split_on Separator (Clean p) →
  cleanElems p = split_on Separator (Clean p)
  ∧ Forall isRealElem (cleanElems p)
  ∧ cleanElems p ≠ []
  ∧ Clean p = join_with Separator (cleanElems p).
Proof.
  intros Hrel Hdot Hdd. rewrite Clean_render, Hrel in *.
  pose proof (cleanElems_shape p) as Hs. rewrite Hrel in Hs.
  pose proof (cleanShape_pieces _ _ Hs) as Hp.
  destruct (cleanElems p) as [|e out] eqn:E.
  - exfalso. apply Hdot. simpl. by left.
  - unfold render in *. rewrite split_join_pieces in * by done.
    split; [done|]. split; [|done].
    destruct Hs as (k & elems & Ek & Hreal & _). destruct k as [|k].
    + simpl in Ek. by rewrite Ek.
    + exfalso. apply Hdd. rewrite Ek. apply elem_of_app. left.
      apply replicate_dotdot_elem. lia.
Qed.

Lemma normalizePath_eq p :
  normalizePath p
  = if isRooted p then join_with Separator (cleanElems p)
    else render false (cleanElems p).
Proof.
  unfold normalizePath. rewrite Clean_render.
  pose proof (render_rooted _ _ (cleanElems_shape p)) as Hr.
  destruct (isRooted p).
  - unfold render. by rewrite Ascii.eqb_refl.
  - destruct (render false (cleanElems p)) as [|c rest]; [done|].
    simpl in Hr. by rewrite Hr.
Qed.

Lemma cleanElems_rooted_variant p :
  isRooted p = false → Forall isRealElem (cleanElems p) →
  cleanElems (Separator :: p) = cleanElems p.
Proof.
  intros Hrel Hreal. unfold cleanElems at 1.
  change (isRooted (Separator :: p)) with true.
  change (split_on Separator (Separator :: p)) with ([] :: split_on Separator p).
  change (foldl (cleanStep true) [] ([] :: split_on Separator p))
    with (foldl (cleanStep true) ([] ++ []) (split_on Separator p)).
  rewrite (fold_prefix _ true [] [] (cleanElems p)); try done.
  - apply split_on_pieces.
  - unfold cleanElems. by rewrite Hrel.
Qed.

Lemma cleanElems_trailing_separator p :
  p ≠ [] → cleanElems (p ++ [Separator]) = cleanElems p.
Proof.
  intros Hp. unfold cleanElems. rewrite isRooted_app by done.
  rewrite split_on_app, foldl_app. done.
Qed.

(** [normalizePath] never returns a rooted path; it returns the empty path
    exactly for the paths that clean to the root. *)
Theorem normalizePath_never_rooted (p : chars) :
  isRooted (normalizePath p) = false
  ∧ (normalizePath p = [] ↔ Clean p = [Separator]).
Proof.
  rewrite normalizePath_eq, Clean_render.
  pose proof (cleanElems_shape p) as Hs.
  destruct (isRooted p) eqn:Hr.
  - split.
    + apply join_with_unrooted. by eapply cleanShape_pieces.
    + unfold render. split; [by intros ->|]. by intros [= ->].
  - split; [by apply render_rooted|].
    pose proof (cleanShape_pieces _ _ Hs) as Hp.
    unfold render. destruct (cleanElems p) as [|e out]; [done|].
    split.
    + intros E. exfalso. apply Forall_cons in Hp as [[He _] _].
      destruct out; simpl in E; [done|]. by destruct e.
    + intros E. exfalso.
      assert (isRooted (join_with Separator (e :: out)) = false) as Hu
        by (by apply join_with_unrooted).
      by rewrite E in Hu.
Qed.

(** Paths that refer to the same file in different formats get the same
    key: for a relative path that cleans to ordinary elements,
    [normalizePath] gives the cleaned path, also with a separator put in
    front or behind, and normalizing again changes nothing. *)
Theorem normalizePath_same_key (p : chars) :
  isRooted p = false →
  dot ∉ split_on Separator (Clean p) →
  dotdot ∉ split_on Separator (Clean p) →
  normalizePath p = Clean p
  ∧ normalizePath (Separator :: p) = normalizePath p
  ∧ normalizePath (p ++ [Separator]) = normalizePath p
  ∧ normalizePath (normalizePath p) = normalizePath p.
Proof.
  intros Hrel Hdot Hdd.
  destruct (plain_parts p Hrel Hdot Hdd) as (_ & Hreal & Hne & Hclean).
  assert (p ≠ []) as Hp by (intros ->; by apply Hne).
  assert (normalizePath p = join_with Separator (cleanElems p)) as Hnp.
  { rewrite normalizePath_eq, Hrel. unfold render.
    by destruct (cleanElems p). }
  split; [by rewrite Hnp, Hclean|]. split; [|split].
  - rewrite (normalizePath_eq (Separator :: p)).
    change (isRooted (Separator :: p)) with true. cbv iota.
    by rewrite cleanElems_rooted_variant.
  - rewrite (normalizePath_eq (p ++ [Separator])), isRooted_app, Hrel by done.
    rewrite cleanElems_trailing_separator by done.
    rewrite Hnp. unfold render. by destruct (cleanElems p).
  - rewrite Hnp at 1 2. rewrite normalizePath_eq.
    assert (cleanShape false (cleanElems p)) as Hs by (by apply cleanShape_real).
    assert (join_with Separator (cleanElems p) = render false (cleanElems p)) as ->.
    { unfold render. by destruct (cleanElems p). }
    by rewrite render_rooted, cleanElems_render.
Qed.

(** ** More about joining within a root *)

Lemma Clean_idempotent p : Clean (Clean p) = Clean p.
Proof.
  rewrite (Clean_render p). rewrite Clean_render.
  by rewrite render_rooted, cleanElems_render by apply cleanElems_shape.
Qed.

Lemma Clean_trailing_separator p : p ≠ [] → Clean (p ++ [Separator]) = Clean p.
Proof.
  intros Hp. rewrite !Clean_render, isRooted_app by done.
  by rewrite cleanElems_trailing_separator.
Qed.

(** With a root that is not empty, [joinWithinRoot] ends up inside the
    root for every path, rooted or not. *)
Theorem joinWithinRoot_any_path_below_root (root relpath : chars) :
  root ≠ [] → within root (joinWithinRoot root relpath).
Proof. intros Hroot. apply joinWithinRoot_within. by left. Qed.

(** A relative path that only climbs, or stays where it is, gives the
    root itself: as the comment on [joinWithinRoot] says, the root is
    final. *)
Theorem joinWithinRoot_climbing_gives_root (root relpath : chars) :
  root ≠ [] →
  isRooted relpath = false →
  Forall (λ part, part = dotdot ∨ part = dot) (split_on Separator (Clean relpath)) →
  joinWithinRoot root relpath = Clean root.
Proof.
  intros Hroot Hrel Hparts. unfold joinWithinRoot. cbv zeta.
  destruct (joinWithinRoot_parts relpath Hrel) as (k & E & Hkept & Hcase).
  set (parts := split_on Separator (Clean relpath)) in *.
  assert (stripLoop parts parts = [dot] ∨ stripLoop parts parts = []) as Hk.
  { destruct Hcase as [[? _]|Hreal]; [by left|right].
    rewrite E in Hparts. apply Forall_app in Hparts as [_ Hparts].
    destruct (stripLoop parts parts) as [|e kept]; [done|].
    apply Forall_cons in Hparts as [He _]. apply Forall_cons in Hreal as [Hr _].
    destruct Hr as (_ & Hd & Hdd & _). by destruct He. }
  rewrite Join_two. case_decide; [done|].
  destruct Hk as [-> | ->].
  - rewrite !Clean_render, isRooted_app, cleanElems_join by done. done.
  - simpl join_with. by apply Clean_trailing_separator.
Qed.

(** For a relative path that stays below the root, one whose cleaned
    parts have no [..], [joinWithinRoot] is [filepath.Join]. *)
Theorem joinWithinRoot_agrees_with_Join (root relpath : chars) :
  root ≠ [] →
  isRooted relpath = false →
  dotdot ∉ split_on Separator (Clean relpath) →
  joinWithinRoot root relpath = Join [root; relpath].
Proof.
  intros Hroot Hrel Hdd.
  pose proof (cleanElems_shape relpath) as Hs. rewrite Hrel in Hs.
  pose proof (cleanShape_pieces _ _ Hs) as Hp.
  assert (Forall isRealElem (cleanElems relpath)) as Hreal.
  { destruct Hs as (k & elems & Ek & Hr & _). destruct k as [|k].
    - simpl in Ek. by rewrite Ek.
    - exfalso. apply Hdd. rewrite Clean_render, Hrel, Ek. unfold render.
      rewrite <- Ek at 1. destruct (cleanElems relpath) as [|e out] eqn:E; [done|].
      rewrite <- Ek. rewrite split_join_pieces by done. rewrite Ek.
      apply elem_of_app. left. apply replicate_dotdot_elem. lia. }
  assert (Join [root; relpath]
          = render (isRooted root) (cleanElems root ++ cleanElems relpath)) as ->.
  { rewrite Join_two. case_decide; [done|].
    rewrite Clean_render, isRooted_app, cleanElems_join by done. f_equal.
    rewrite <- (app_nil_r (cleanElems root)) at 1.
    apply fold_prefix; try done; [apply split_on_pieces|].
    unfold cleanElems. by rewrite Hrel. }
  unfold joinWithinRoot. cbv zeta. rewrite (Clean_render relpath), Hrel.
  rewrite Join_two. case_decide; [done|].
  destruct (cleanElems relpath) as [|e out] eqn:E.
  - simpl. rewrite !Clean_render, isRooted_app, cleanElems_join by done.
    simpl. by rewrite app_nil_r.
  - change (render false (e :: out)) with (join_with Separator (e :: out)).
    rewrite split_join_pieces by done.
    try rewrite E in Hreal.
    pose proof (stripLoop_dotdots 0 (e :: out) Hreal) as Hst.
    change (replicate 0 dotdot ++ e :: out) with (e :: out) in Hst.
    rewrite Hst.
    rewrite Clean_render, isRooted_app, cleanElems_join by done.
    rewrite split_join_pieces by done. by rewrite fold_real.
Qed.

(** With the empty root a rooted path is not brought inside: it comes back
    cleaned and still rooted. *)
Theorem joinWithinRoot_empty_root_keeps_rooted_path (relpath : chars) :
  isRooted relpath = true →
  joinWithinRoot [] relpath = Clean relpath
  ∧ isRooted (joinWithinRoot [] relpath) = true
  ∧ ¬ within [] (joinWithinRoot [] relpath).
Proof.
  intros Hrel.
  assert (joinWithinRoot [] relpath = Clean relpath) as E.
  { unfold joinWithinRoot. cbv zeta.
    pose proof (cleanElems_shape relpath) as (k & elems & Ek & Hreal & Hk).
    rewrite Hrel in Hk. rewrite (Hk eq_refl) in Ek. simpl in Ek.
    assert (Forall (λ e, e ≠ [] ∧ Separator ∉ e) elems) as Hp.
    { eapply Forall_impl; [exact Hreal|]. by intros e (? & _ & _ & ?). }
    assert (∀ x, x = Clean relpath → Join [[]; x] = Clean relpath) as HJ.
    { intros x ->. rewrite Join_two. case_decide; [|done].
      case_decide as Hx; [|apply Clean_idempotent].
      rewrite Clean_render, Hrel in Hx. done. }
    apply HJ. rewrite Clean_render, Hrel, Ek. unfold render.
    change (split_on Separator (Separator :: join_with Separator elems))
      with ([] :: split_on Separator (join_with Separator elems)).
    simpl stripLoop. destruct elems as [|e elems]; [done|].
    by rewrite split_join_pieces. }
  assert (isRooted (joinWithinRoot [] relpath) = true) as Hr.
  { rewrite E, Clean_render, Hrel. done. }
  split; [done|]. split; [done|]. intros [Hw _]. simpl in Hw. congruence.
Qed.

(** ** The template extension *)

Lemma suffix_stem (path ext : chars) :
  (length ext ≤ length path)%nat →
  drop (length path - length ext) path = ext →
  path = take (length path - length ext) path ++ ext.
Proof. intros Hlen Hd. rewrite <- Hd at 2. by rewrite take_drop. Qed.

Lemma drop_stem (stem ext : chars) :
  drop (length (stem ++ ext) - length ext) (stem ++ ext) = ext
  ∧ take (length (stem ++ ext) - length ext) (stem ++ ext) = stem.
Proof.
  rewrite length_app.
  replace (length stem + length ext - length ext)%nat with (length stem) by lia.
  split; [by rewrite drop_app_length|by rewrite take_app_length].
Qed.

(** [hasTemplateExtension] holds exactly of the paths that are a stem that
    is not empty followed by the extension, and cutting the length of the
    extension off such a path, as [Run] does, gives the stem back. *)
Theorem hasTemplateExtension_stem (path : chars) :
  (hasTemplateExtension path = true
   ↔ ∃ stem, stem ≠ [] ∧ path = stem ++ templateExt)
  ∧ (∀ stem, path = stem ++ templateExt →
             take (length path - length templateExt) path = stem).
Proof.
  split; [|intros stem ->; apply drop_stem].
  unfold hasTemplateExtension. rewrite andb_true_iff, Nat.ltb_lt, bool_decide_eq_true.
  split.
  - intros [Hlen Hd]. exists (take (length path - length templateExt) path).
    split; [|apply suffix_stem; [lia|done]].
    intros E. apply (f_equal length) in E. rewrite length_take in E.
    change (length templateExt) with 6%nat in *. simpl in E. lia.
  - intros (stem & Hne & ->). split; [|apply drop_stem].
    rewrite length_app. destruct stem; [done|]. simpl. lia.
Qed.

(** The method of the earlier runner panics exactly on the paths shorter
    than the extension; otherwise it holds exactly of the paths that end
    in the extension, the bare extension included, which is the one path
    of sufficient length on which it differs from the later function. *)
Theorem old_hasTemplateExtension_panics_on_short_paths (path : chars) :
  (OldRunner.hasTemplateExtension path = None
   ↔ (length path < length OldRunner.templateExt)%nat)
  ∧ (OldRunner.hasTemplateExtension path = Some true
     ↔ ∃ stem, path = stem ++ OldRunner.templateExt)
  ∧ (OldRunner.hasTemplateExtension path = Some (hasTemplateExtension path)
     ↔ (length OldRunner.templateExt < length path)%nat
       ∨ ((length OldRunner.templateExt ≤ length path)%nat
          ∧ path ≠ OldRunner.templateExt)).
Proof.
  unfold OldRunner.hasTemplateExtension, hasTemplateExtension. cbv zeta.
  change OldRunner.templateExt with templateExt.
  destruct (length path <? length templateExt)%nat eqn:Hlt.
  - apply Nat.ltb_lt in Hlt. split; [done|]. split; [|split; [done|lia]].
    split; [done|]. intros [stem ->]. rewrite length_app in Hlt. lia.
  - apply Nat.ltb_ge in Hlt. split; [split; [done|lia]|]. split.
    + split.
      * intros [= Hd%bool_decide_eq_true]. eexists. by apply suffix_stem.
      * intros [stem ->]. f_equal. apply bool_decide_eq_true. apply drop_stem.
    + destruct (length templateExt <? length path)%nat eqn:Hlt2.
      * apply Nat.ltb_lt in Hlt2. split; [by left|done].
      * apply Nat.ltb_ge in Hlt2. simpl.
        assert (length path = length templateExt) as Hlen by lia.
        rewrite Hlen, Nat.sub_diag. simpl drop. split.
        -- intros [= Hd%bool_decide_eq_false]. right. split; [done|done].
        -- change (length templateExt) with 6%nat in *.
           intros [?|[_ Hne]]; [lia|]. f_equal. by apply bool_decide_eq_false.
Qed.

End PathMore.

Lemma normalizePath_same_key_witness :
  let p := chars_of "./gen//a/../b.txt" in
  (filepath.isRooted p = false
   ∧ (filepath.dot ∉ split_on filepath.Separator (filepath.Clean p))
   ∧ (filepath.dotdot ∉ split_on filepath.Separator (filepath.Clean p)))
  ∧ Runner.normalizePath (filepath.Separator :: p) = Runner.normalizePath p.
Proof.
  intros p.
  assert (filepath.dot ∉ split_on filepath.Separator (filepath.Clean p)) as H2
    by (apply (bool_decide_unpack _); exact I).
  assert (filepath.dotdot ∉ split_on filepath.Separator (filepath.Clean p)) as H3
    by (apply (bool_decide_unpack _); exact I).
  split; [by repeat split|].
  exact (proj1 (proj2 (normalizePath_same_key p eq_refl H2 H3))).
Defined.

Lemma joinWithinRoot_any_path_below_root_witness :
  let root := chars_of "out" in
  let relpath := chars_of "/../etc/passwd" in
  root ≠ [] ∧ within root (Generator.joinWithinRoot root relpath).
Proof.
  intros root relpath.
  assert (root ≠ []) as H by discriminate.
  split; [exact H|].
  exact (joinWithinRoot_any_path_below_root root relpath H).
Defined.

Lemma joinWithinRoot_climbing_gives_root_witness :
  let root := chars_of "out/./dir/" in
  let relpath := chars_of "a/../../.." in
  (root ≠ [] ∧ filepath.isRooted relpath = false
   ∧ Forall (λ part, part = filepath.dotdot ∨ part = filepath.dot)
       (split_on filepath.Separator (filepath.Clean relpath)))
  ∧ Generator.joinWithinRoot root relpath = filepath.Clean root.
Proof.
  intros root relpath.
  assert (root ≠ []) as H1 by discriminate.
  assert (Forall (λ part, part = filepath.dotdot ∨ part = filepath.dot)
            (split_on filepath.Separator (filepath.Clean relpath))) as H3.
  { repeat constructor. }
  split; [by repeat split|].
  exact (joinWithinRoot_climbing_gives_root root relpath H1 eq_refl H3).
Defined.

Lemma joinWithinRoot_agrees_with_Join_witness :
  let root := chars_of "out" in
  let relpath := chars_of "a/b/../c.txt" in
  (root ≠ [] ∧ filepath.isRooted relpath = false
   ∧ (filepath.dotdot ∉ split_on filepath.Separator (filepath.Clean relpath)))
  ∧ Generator.joinWithinRoot root relpath = filepath.Join [root; relpath].
Proof.
  intros root relpath.
  assert (root ≠ []) as H1 by discriminate.
  assert (filepath.dotdot ∉ split_on filepath.Separator (filepath.Clean relpath))
    as H3 by (apply (bool_decide_unpack _); exact I).
  split; [by repeat split|].
  exact (joinWithinRoot_agrees_with_Join root relpath H1 eq_refl H3).
Defined.

Lemma joinWithinRoot_empty_root_keeps_rooted_path_witness :
  let relpath := chars_of "/etc/../etc/passwd" in
  filepath.isRooted relpath = true
  ∧ Generator.joinWithinRoot [] relpath = filepath.Clean relpath.
Proof.
  intros relpath. split; [reflexivity|].
  exact (proj1 (joinWithinRoot_empty_root_keeps_rooted_path relpath eq_refl)).
Defined.

(** * Properties of the runner *)

Section RunnerFacts.
Import filepath filepathx Generator Runner.
Context {E : Type} (IsNotExist : E → bool).

Implicit Types (r : @Runner E) (tr : list (@event E)).

Ltac run_simpl H :=
  cbn [runs bind mbind mret fmap prog_bind prog_ret prog_fmap perform negb andb] in H.

Ltac run_step H :=
  lazymatch type of H with
  | _ ∧ _ => destruct H as [-> ->]
  | ∃ _, _ =>
    let a := fresh "a" in let tr := fresh "tr" in
    destruct H as (a & tr & -> & H); run_simpl H
  | context [match ?x with _ => _ end] => destruct x eqn:?; run_simpl H
  end.

(** Every way the callback can run, by cases on the answers. *)
Ltac run_cases H :=
  unfold walkFn, writeTarget, writeFile, handleError in H;
  cbn [observed OnSuccess OnError OnFileExists
       onExists onError onSuccess writeDir ignore] in H;
  repeat match type of H with
         | context [if ?d then _ else _] => is_var d; destruct d
         end;
  repeat match type of H with
         | context [ignore ?r !! ?k] => destruct (ignore r !! k) as [[]|] eqn:?
         end;
  repeat match type of H with
         | context [bool_decide ?P] =>
           let b := eval vm_compute in (bool_decide P) in
           change (bool_decide P) with b in H
         end;
  cbn [andb] in H;
  run_simpl H; repeat run_step H;
  repeat match goal with
         | u : () |- _ => destruct u
         | Hn : negb ?a = _ |- _ =>
           first [ is_var a; destruct a; try discriminate Hn; clear Hn
                 | apply (proj1 (negb_false_iff _)) in Hn
                 | apply (proj1 (negb_true_iff _)) in Hn ]
         end.

(** Whatever the environment answers, a program comes to an end: what
    [exec] gives is a run of it. *)
Lemma exec_runs {S R : Type} (env : ∀ A, @call E A → S → A * S)
  (p : prog R) (s : S) :
  runs p (exec env p s).1.1 (exec env p s).1.2.
Proof.
  revert s. induction p as [r0|A c k IH]; intros s; cbn [exec runs]; [done|].
  destruct (env A c s) as [a s'] eqn:He. specialize (IH a s').
  destruct (exec env (k a) s') as [[tr0 r0] s'']. by exists a, tr0.
Qed.

(** ** Directories and ignored paths *)



Lemma NewRunner_snoc dir options (option : OptionFn) :
  NewRunner dir (options ++ [option]) = option (@NewRunner E dir options).
Proof. unfold NewRunner. by rewrite foldl_app. Qed.


(** Error handling of the function handed to [Walk]. At most one error
    is given to [onError] per file. If none is, the function returns
    [nil], or [SkipDir] for a directory and without a call, or panics. If
    one is, it is a [RunError] that wraps the cause (the error [Walk] came
    with, or the last error answered in the run) with the path (as given
    if [Walk] came with the error, normalized otherwise); the call of
    [onError] is the last of the run, its answer decides between [nil]
    and the [RunError], and the file is not reported to [onSuccess]. *)
Theorem errors_go_through_onError r fpath isDir err tr res :
  runs (walkFn IsNotExist (observed r) fpath isDir err) tr res →
  match reported tr with
  | [] => res = returns None ∨ res = panics
          ∨ (res = returns (Some SkipDir) ∧ isDir = true ∧ tr = [])
  | [(e, skip)] =>
    ∃ cause, e = RunError cause (errorPath fpath err)
             ∧ last (option_list err ++ failures tr) = Some cause
             ∧ last tr = Some (Event (OnErrorFn e) skip)
             ∧ res = returns (if skip then None else Some e)
             ∧ succeeded tr = []
  | _ => False
  end.
Proof.
  intros H. run_cases H; cbn; eauto 10.

Qed.


(** Membership in what a run of known shape wrote, reported or parsed. *)
Ltac in_trace Hin :=
  cbn [succeeded written reported parsed omap list_omap] in Hin;
  first [ by apply elem_of_nil in Hin
        | apply list_elem_of_singleton in Hin; simplify_eq ].

(** A file is reported to [onSuccess] only as the last step of a run that
    made the directory of the destination and wrote the destination, both
    without error; the source reported is the normalized path, the
    function returns [nil] and no error was reported. *)
Theorem success_is_reported_after_writing r fpath isDir err tr res :
  runs (walkFn IsNotExist (observed r) fpath isDir err) tr res →
  ∀ src dst, (src, dst) ∈ succeeded tr →
    src = normalizePath fpath ∧ res = returns None ∧ reported tr = []
    ∧ ∃ pre data,
        tr = pre ++ [Event (MkdirAll (Dir dst) 493) None;
                     Event (WriteFile dst data 509) None;
                     Event (OnSuccessFn src dst) tt].
Proof.
  intros H. run_cases H; intros src dst Hin; in_trace Hin.
  all: repeat split.
  all: first [ by eexists [_], _ | by eexists [_; _], _ | by eexists [_; _; _], _
             | by eexists [_; _; _; _], _ | by eexists [_; _; _; _; _], _
             | by eexists [_; _; _; _; _; _], _ ].
Qed.

(** What is written: at most one file per run, with permissions 0775,
    right after [MkdirAll] of its directory (with 0755) succeeded, and
    only after [Stat] of that very name either failed with an error that
    says the file does not exist, or succeeded and the caller's
    [onExists] answered [true] for that name. *)
Theorem files_are_written_once_and_guarded r fpath isDir err tr res :
  runs (walkFn IsNotExist (observed r) fpath isDir err) tr res →
  ∀ name data perm, (name, data, perm) ∈ written tr →
    perm = 509%N ∧ written tr = [(name, data, perm)]
    ∧ ∃ pre info statErr asked answer post,
        tr = pre ++ [Event (Stat name) (info, statErr)] ++ asked
                 ++ [Event (MkdirAll (Dir name) 493) None;
                     Event (WriteFile name data perm) answer] ++ post
        ∧ match statErr with
          | None => asked = [Event (OnExistsFn name) true]
          | Some e => asked = [] ∧ isNotExist IsNotExist e = true
          end.
Proof.
  intros H. run_cases H; intros name data perm Hin; in_trace Hin.
  all: split; [done|]; split; [done|].
  all: first [ eexists [_], _, _, [], _, _; split; [reflexivity|by cbn]
             | eexists [_], _, _, [_], _, _; split; [reflexivity|by cbn]
             | eexists [_; _], _, _, [], _, _; split; [reflexivity|by cbn]
             | eexists [_; _], _, _, [_], _, _; split; [reflexivity|by cbn]
             | eexists [_; _; _], _, _, [], _, _; split; [reflexivity|by cbn]
             | eexists [_; _; _], _, _, [_], _, _; split; [reflexivity|by cbn] ].
Qed.


(** A template whose blueprint says [Skip] ends the file: after [ReadFile]
    and [Parse] nothing is called, and the function returns [nil]. *)
Theorem skipped_template_ends_the_file r fpath isDir err tr res :
  runs (walkFn IsNotExist (observed r) fpath isDir err) tr res →
  ∀ b tpl, (b, (Some tpl, None)) ∈ parsed tr → Skip tpl = true →
    tr = [Event (ReadFile (normalizePath fpath)) (b, None);
          Event (Parse b) (Some tpl, None)]
    ∧ res = returns None.
Proof.
  intros H. run_cases H; intros b' tpl Hin Hskip; in_trace Hin; first [done|congruence].
Qed.

(** A file whose target does not have the template extension is never
    given to the parser; if it is written, then under the name joined
    from [writeDir] and its normalized path, with the bytes [ReadFile]
    answered. *)
Theorem static_files_are_copied r fpath isDir err tr res :
  runs (walkFn IsNotExist (observed r) fpath isDir err) tr res →
  hasTemplateExtension (Join [writeDir r; normalizePath fpath]) = false →
  parsed tr = []
  ∧ ∀ name data perm, (name, data, perm) ∈ written tr →
      name = Join [writeDir r; normalizePath fpath]
      ∧ head tr = Some (Event (ReadFile (normalizePath fpath)) (data, None)).
Proof.
  intros H. run_cases H; intros Hext; try congruence.
  all: split; [done|]; intros name data perm Hin; by in_trace Hin.
Qed.

(** A file the parser answered with a blueprint for is a template: its
    target has the template extension, and the parser was given what
    [ReadFile] answered. If a file is written then with the body of the
    blueprint; without a file name in the blueprint under the target
    less the extension; with one, under [joinWithinRoot] of [writeDir]
    and that name, or, if [Stat] says this is a directory, under the base
    name of the target less the extension, inside that directory. *)
Theorem template_output r fpath isDir err tr res :
  runs (walkFn IsNotExist (observed r) fpath isDir err) tr res →
  ∀ b tpl, (b, (Some tpl, None)) ∈ parsed tr →
    let target := Join [writeDir r; normalizePath fpath] in
    let stem := take (length target - length templateExt) target in
    let named := joinWithinRoot (writeDir r) (Filename tpl) in
    hasTemplateExtension target = true
    ∧ head tr = Some (Event (ReadFile (normalizePath fpath)) (b, None))
    ∧ ∀ name data perm, (name, data, perm) ∈ written tr →
        data = Body tpl ∧ Skip tpl = false
        ∧ (Filename tpl = [] → name = stem)
        ∧ (Filename tpl ≠ [] →
           tr !! 2%nat = Some (Event (Stat named) (Some true, None))
           ∧ name = Join [named; Base stem]
           ∨ (∃ info statErr, tr !! 2%nat = Some (Event (Stat named) (info, statErr))
                              ∧ (info, statErr) ≠ (Some true, None))
             ∧ name = named).
Proof.
  intros H. run_cases H; intros b' tpl Hin; in_trace Hin.
  all: intros target stem named; split; [done|]; split; [done|].
  all: intros name data perm Hw; in_trace Hw.
  all: split; [done|]; split; [done|]; split; [done|]; intros Hn; try done.
  all: first [ by left | right; split; [|done]; by eexists _, _ ].
Qed.

(** The function panics exactly in the runs that end in an answer with
    neither a value nor an error: a [nil] blueprint from [Parse], or a
    [nil] file info from the [Stat] of the name a blueprint gives. *)
Theorem panics_only_on_nil_answers r fpath isDir err tr res :
  runs (walkFn IsNotExist (observed r) fpath isDir err) tr res →
  res = panics ↔ nilAnswer <$> last tr = Some true.
Proof.
  intros H. run_cases H; cbn; split; intros; try done.
  all: repeat match goal with o : option _ |- _ => destruct o end; try done.
Qed.


(** ** Where a named template is written *)

Lemma Clean_nonempty p : Clean p ≠ [].
Proof.
  rewrite Clean_render. pose proof (cleanElems_shape p) as Hs.
  apply cleanShape_pieces in Hs. unfold render.
  destruct (isRooted p); [done|].
  destruct (cleanElems p) as [|e out]; [done|].
  apply Forall_cons in Hs as [[He _] _].
  destruct out; [done|]. rewrite join_with_cons. by destruct e.
Qed.

Lemma span_run (f : ascii → bool) s : Forall (λ c, f c = true) (span f s).1.
Proof.
  induction s as [|c s IH]; simpl; [done|].
  destruct (f c) eqn:Hc; [|done]. destruct (span f s). by constructor.
Qed.

Lemma Base_element p : Base p = [Separator] ∨ Separator ∉ Base p.
Proof.
  unfold Base. destruct p as [|c p]; [right; by apply (bool_decide_unpack _)|].
  cbv zeta.
  set (stripped := reverse (span isSeparator (reverse (c :: p))).2).
  pose proof (span_run (λ c, negb (isSeparator c)) (reverse stripped)) as Hrun.
  destruct (reverse (span _ (reverse stripped)).1) as [|x rest] eqn:Hr;
    [by left|right].
  rewrite <- Hr. intros Hin. rewrite elem_of_reverse in Hin.
  rewrite Forall_forall in Hrun. by specialize (Hrun _ Hin).
Qed.

Lemma Join_element_within root t e :
  within root t → t ≠ [] → e ≠ dotdot → e = [Separator] ∨ Separator ∉ e →
  within root (Join [t; e]).
Proof.
  intros [Hr (elems & Hreal & Hel)] Ht He Hsep.
  rewrite Join_two, decide_False by done.
  rewrite Clean_render, isRooted_app, cleanElems_join, Hel, Hr by done.
  assert (∃ elems', Forall isRealElem elems'
            ∧ foldl (cleanStep (isRooted root)) (cleanElems root ++ elems)
                    (split_on Separator e)
              = cleanElems root ++ elems') as (elems' & Hreal' & ->).
  { destruct Hsep as [->|Hsep]; [by exists elems|].
    rewrite split_on_piece by done. cbn [foldl]. unfold cleanStep.
    repeat case_decide; try done; try by exists elems.
    exists (elems ++ [e]). rewrite app_assoc. split; [|done].
    apply Forall_app. split; [done|]. by repeat constructor. }
  pose proof (cleanShape_app _ _ _ (cleanElems_shape root) Hreal') as Hs.
  split; [by rewrite render_rooted|].
  exists elems'. split; [done|]. by rewrite cleanElems_render.
Qed.

Lemma joinWithinRoot_nonempty root relpath :
  root ≠ [] → joinWithinRoot root relpath ≠ [].
Proof.
  intros Hroot. unfold joinWithinRoot. cbv zeta.
  rewrite Join_two, decide_False by done. apply Clean_nonempty.
Qed.

(** With a [writeDir] that is not empty, a template whose blueprint gives
    a file name is written inside [writeDir], provided the target less
    the extension does not end in the element [..] (as it does for a
    source file named [...accio]). *)
Theorem named_template_stays_below_writeDir r fpath isDir err tr res :
  runs (walkFn IsNotExist (observed r) fpath isDir err) tr res →
  writeDir r ≠ [] →
  ∀ b tpl, (b, (Some tpl, None)) ∈ parsed tr → Filename tpl ≠ [] →
    let target := Join [writeDir r; normalizePath fpath] in
    let stem := take (length target - length templateExt) target in
    Base stem ≠ dotdot →
    ∀ name data perm, (name, data, perm) ∈ written tr →
      within (writeDir r) name.
Proof.
  intros H. run_cases H; intros Hroot b' tpl Hin Hname; in_trace Hin.
  all: intros target stem Hbase name data perm Hw; in_trace Hw; try done.
  all: try (apply joinWithinRoot_within; by left).
  all: apply Join_element_within;
    [ apply joinWithinRoot_within; by left
    | by apply joinWithinRoot_nonempty
    | done
    | apply Base_element ].
Qed.

(** ** The runner as [NewRunner] makes it *)

Lemma NewRunner_ignore_options dir (options : list (@OptionFn E)) :
  Forall isIgnoreOption options →
  writeDir (NewRunner dir options) = dir
  ∧ onExists (NewRunner dir options) = (λ _, Ret false)
  ∧ onError (NewRunner dir options) = (λ _, Ret false)
  ∧ onSuccess (NewRunner dir options) = (λ _ _, Ret tt).
Proof.
  induction options as [|option options IH] using rev_ind; intros Hall; [done|].
  apply Forall_app in Hall as [Hall Hopt]. rewrite Forall_singleton in Hopt.
  rewrite NewRunner_snoc. destruct (IH Hall) as (Hw & Hx & He & Hs).
  by destruct Hopt as [p [->| ->]].
Qed.

(** A runner made by [NewRunner] with no other options than paths to
    ignore calls no function of its caller; the error [Walk] comes with
    and every error of [ReadFile], [Parse], [MkdirAll] and [WriteFile]
    ends the walk, returned as a [RunError] with the path; and a file is
    written only if the last [Stat] was of its name and said that it
    does not exist. *)
Theorem default_runner_keeps_files_and_stops_on_errors
  dir (options : list (@OptionFn E)) fpath isDir err tr res :
  Forall isIgnoreOption options →
  runs (walkFn IsNotExist (NewRunner dir options) fpath isDir err) tr res →
  callbacks tr = []
  ∧ (∀ e, err = Some e → tr = [] ∧ res = returns (Some (RunError e fpath)))
  ∧ (∀ cause, cause ∈ fatal tr →
       res = returns (Some (RunError cause (normalizePath fpath))))
  ∧ (∀ name data perm, (name, data, perm) ∈ written tr →
       ∃ info e, last (statted tr) = Some (name, (info, Some e))
                 ∧ isNotExist IsNotExist e = true).
Proof.
  intros (Hw & Hx & He & Hs)%(NewRunner_ignore_options dir) H.
  destruct (NewRunner dir options) as [wd oe oerr os ig].
  cbn [writeDir onExists onError onSuccess] in Hw, Hx, He, Hs. subst.
  run_cases H.
  all: split; [done|]; split; [by intros ? [= <-]|].
  all: split; [intros cause Hin|intros name data perm Hin].
  all: cbn [fatal written omap list_omap snd] in Hin.
  all: first [ by apply elem_of_nil in Hin
             | apply list_elem_of_singleton in Hin; simplify_eq ]; try done.
  all: by eexists _, _.
Qed.

End RunnerFacts.


(** ** The properties of the runner on the example runs *)

Section RunnerExamples.
Import filepath filepathx Generator Runner.

Ltac run_demo :=
  unfold Demo.walk, walkFn;
  match goal with
  | |- context [ignore ?r !! ?k] =>
    let v := eval vm_compute in (ignore r !! k) in
    change (ignore r !! k) with v
  end;
  repeat (unfold writeTarget, writeFile, handleError;
          cbn [runs bind mbind mret fmap prog_bind prog_ret prog_fmap perform
               negb andb Demo.runner observed OnSuccess OnError OnFileExists
               NewRunner foldl IgnoreFile IgnoreDir
               onExists onError onSuccess];
          lazymatch goal with
          | |- _ ∧ _ => split; reflexivity
          | |- ∃ _, _ => eexists _, _; split; [reflexivity|]
          | |- runs (match ?x with _ => _ end) _ _ =>
            let v := eval vm_compute in x in change x with v
          end).

Ltac in_demo := vm_compute; constructor.


Lemma errors_go_through_onError_witness :
  let e := RunError Demo.failed (chars_of "a.txt") in
  runs (Demo.walk "a.txt") Demo.unreadable (returns (Some e))
  ∧ ∃ cause,
      e = RunError cause (errorPath (E:=bool) (chars_of "a.txt") None)
      ∧ last (option_list None ++ failures Demo.unreadable) = Some cause
      ∧ last Demo.unreadable = Some (Event (OnErrorFn e) false)
      ∧ returns (Some e) = returns (if false then None else Some e)
      ∧ succeeded Demo.unreadable = [].
Proof.
  intros e.
  assert (runs (Demo.walk "a.txt") Demo.unreadable (returns (Some e))) as Hr
    by run_demo.
  split; [exact Hr|].
  exact (errors_go_through_onError id _ _ _ _ _ _ Hr).
Defined.

Lemma success_is_reported_after_writing_witness :
  let src := chars_of "a.txt" in
  let dst := chars_of "out/a.txt" in
  runs (Demo.walk "a.txt") Demo.copied (returns None)
  ∧ (src, dst) ∈ succeeded Demo.copied
  ∧ src = normalizePath (chars_of "a.txt")
  ∧ @returns bool None = returns None
  ∧ reported Demo.copied = []
  ∧ ∃ pre data,
      Demo.copied = pre ++ [Event (MkdirAll (Dir dst) 493) None;
                            Event (WriteFile dst data 509) None;
                            Event (OnSuccessFn src dst) tt].
Proof.
  intros src dst.
  assert (runs (Demo.walk "a.txt") Demo.copied (returns None)) as Hr by run_demo.
  assert ((src, dst) ∈ succeeded Demo.copied) as Hin by in_demo.
  split; [exact Hr|]. split; [exact Hin|].
  exact (success_is_reported_after_writing id _ _ _ _ _ _ Hr src dst Hin).
Defined.

Lemma files_are_written_once_and_guarded_witness :
  let name := chars_of "out/sub/a.txt" in
  let data := chars_of "body" in
  let tr := Demo.generated in
  runs (Demo.walk "a.txt.accio") tr (returns None)
  ∧ (name, data, 509%N) ∈ written tr
  ∧ 509%N = 509%N
  ∧ written tr = [(name, data, 509%N)]
  ∧ ∃ pre info statErr asked answer post,
      tr = pre ++ [Event (Stat name) (info, statErr)] ++ asked
               ++ [Event (MkdirAll (Dir name) 493) None;
                   Event (WriteFile name data 509) answer] ++ post
      ∧ match statErr with
        | None => asked = [Event (OnExistsFn name) true]
        | Some e => asked = [] ∧ isNotExist id e = true
        end.
Proof.
  intros name data tr.
  assert (runs (Demo.walk "a.txt.accio") tr (returns None)) as Hr by run_demo.
  assert ((name, data, 509%N) ∈ written tr) as Hin by in_demo.
  split; [exact Hr|]. split; [exact Hin|].
  exact (files_are_written_once_and_guarded id _ _ _ _ _ _ Hr name data _ Hin).
Defined.

Lemma skipped_template_ends_the_file_witness :
  let b := chars_of "skip" in
  runs (Demo.walk "a.txt.accio") Demo.skipped (returns None)
  ∧ (b, (Some Demo.skipping, None)) ∈ parsed Demo.skipped
  ∧ Skip Demo.skipping = true
  ∧ Demo.skipped
    = [Event (ReadFile (normalizePath (chars_of "a.txt.accio"))) (b, None);
       Event (Parse b) (Some Demo.skipping, None)]
  ∧ @returns bool None = returns None.
Proof.
  intros b.
  assert (runs (Demo.walk "a.txt.accio") Demo.skipped (returns None)) as Hr
    by run_demo.
  assert ((b, (Some Demo.skipping, None)) ∈ parsed Demo.skipped) as Hin by in_demo.
  split; [exact Hr|]. split; [exact Hin|]. split; [reflexivity|].
  exact (skipped_template_ends_the_file id _ _ _ _ _ _ Hr b _ Hin eq_refl).
Defined.

Lemma static_files_are_copied_witness :
  let fpath := chars_of "a.txt" in
  runs (Demo.walk "a.txt") Demo.copied (returns None)
  ∧ hasTemplateExtension (Join [writeDir Demo.runner; normalizePath fpath]) = false
  ∧ parsed Demo.copied = []
  ∧ ∀ name data perm, (name, data, perm) ∈ written Demo.copied →
      name = Join [writeDir Demo.runner; normalizePath fpath]
      ∧ head Demo.copied = Some (Event (ReadFile (normalizePath fpath)) (data, None)).
Proof.
  intros fpath.
  assert (runs (Demo.walk "a.txt") Demo.copied (returns None)) as Hr by run_demo.
  split; [exact Hr|]. split; [reflexivity|].
  exact (static_files_are_copied id Demo.runner fpath _ _ _ _ Hr eq_refl).
Defined.

Lemma template_output_witness :
  let b := chars_of "tpl" in
  let tr := Demo.generated in
  let target := Join [writeDir Demo.runner; normalizePath (chars_of "a.txt.accio")] in
  let stem := take (length target - length templateExt) target in
  let named := joinWithinRoot (writeDir Demo.runner) (Filename Demo.named) in
  runs (Demo.walk "a.txt.accio") tr (returns None)
  ∧ (b, (Some Demo.named, None)) ∈ parsed tr
  ∧ hasTemplateExtension target = true
  ∧ head tr = Some (Event (ReadFile (normalizePath (chars_of "a.txt.accio"))) (b, None))
  ∧ ∀ name data perm, (name, data, perm) ∈ written tr →
      data = Body Demo.named ∧ Skip Demo.named = false
      ∧ (Filename Demo.named = [] → name = stem)
      ∧ (Filename Demo.named ≠ [] →
         tr !! 2%nat = Some (Event (Stat named) (Some true, None))
         ∧ name = Join [named; Base stem]
         ∨ (∃ info statErr, tr !! 2%nat = Some (Event (Stat named) (info, statErr))
                            ∧ (info, statErr) ≠ (Some true, None))
           ∧ name = named).
Proof.
  intros b tr target stem named.
  assert (runs (Demo.walk "a.txt.accio") tr (returns None)) as Hr by run_demo.
  assert ((b, (Some Demo.named, None)) ∈ parsed tr) as Hin by in_demo.
  split; [exact Hr|]. split; [exact Hin|].
  exact (template_output id _ _ _ _ _ _ Hr b _ Hin).
Defined.

Lemma panics_only_on_nil_answers_witness :
  runs (Demo.walk "a.txt.accio") Demo.broken panics
  ∧ (@panics bool = panics ↔ nilAnswer <$> last Demo.broken = Some true).
Proof.
  assert (runs (Demo.walk "a.txt.accio") Demo.broken panics) as Hr by run_demo.
  split; [exact Hr|].
  exact (panics_only_on_nil_answers id _ _ _ _ _ _ Hr).
Defined.

Lemma named_template_stays_below_writeDir_witness :
  let b := chars_of "tpl" in
  let tr := Demo.generated in
  let target := Join [writeDir Demo.runner; normalizePath (chars_of "a.txt.accio")] in
  let stem := take (length target - length templateExt) target in
  let name := chars_of "out/sub/a.txt" in
  runs (Demo.walk "a.txt.accio") tr (returns None)
  ∧ writeDir Demo.runner ≠ []
  ∧ (b, (Some Demo.named, None)) ∈ parsed tr
  ∧ Filename Demo.named ≠ []
  ∧ Base stem ≠ dotdot
  ∧ (name, chars_of "body", 509%N) ∈ written tr
  ∧ within (writeDir Demo.runner) name.
Proof.
  intros b tr target stem name.
  assert (runs (Demo.walk "a.txt.accio") tr (returns None)) as Hr by run_demo.
  assert (writeDir Demo.runner ≠ []) as Hroot by done.
  assert ((b, (Some Demo.named, None)) ∈ parsed tr) as Hin by in_demo.
  assert (Filename Demo.named ≠ []) as Hname by done.
  assert (Base stem ≠ dotdot) as Hbase by (vm_compute; done).
  assert ((name, chars_of "body", 509%N) ∈ written tr) as Hw by in_demo.
  repeat (split; [assumption|]).
  exact (named_template_stays_below_writeDir id _ _ _ _ _ _ Hr Hroot b _ Hin
           Hname Hbase _ _ _ Hw).
Defined.

Lemma default_runner_keeps_files_and_stops_on_errors_witness :
  let options := [IgnoreFile (E:=bool) (chars_of "b.txt")] in
  let fpath := chars_of "a.txt" in
  let tr := Demo.refused in
  let res := returns (Some (RunError Demo.failed fpath)) in
  Forall isIgnoreOption options
  ∧ runs (walkFn id (NewRunner (chars_of "out") options) fpath false None) tr res
  ∧ callbacks tr = []
  ∧ (∀ e, None = Some e → tr = [] ∧ res = returns (Some (RunError e fpath)))
  ∧ (∀ cause, cause ∈ fatal tr →
       res = returns (Some (RunError cause (normalizePath fpath))))
  ∧ (∀ name data perm, (name, data, perm) ∈ written tr →
       ∃ info e, last (statted tr) = Some (name, (info, Some e))
                 ∧ isNotExist id e = true).
Proof.
  intros options fpath tr res.
  assert (Forall isIgnoreOption options) as Hall.
  { apply Forall_singleton. exists (chars_of "b.txt"). by left. }
  assert (runs (walkFn id (NewRunner (chars_of "out") options) fpath false None)
            tr res) as Hr by (unfold options, fpath, tr, res; run_demo).
  split; [exact Hall|]. split; [exact Hr|].
  exact (default_runner_keeps_files_and_stops_on_errors id _ _ _ _ _ _ _ Hall Hr).
Defined.

(** The provision on the last element is needed: the template
    [...accio] whose blueprint names the current directory is written to
    the parent of [writeDir]. *)
Example dotdot_stem_leaves_writeDir :
  runs (Demo.walk "...accio") Demo.climbing (returns None)
  ∧ written Demo.climbing = [(chars_of ".", [], 509%N)]
  ∧ ¬ within (writeDir Demo.runner) (chars_of ".").
Proof.
  split; [run_demo|]. split; [done|].
  intros [_ (elems & _ & Hel)]. vm_compute in Hel. discriminate Hel.
Qed.

End RunnerExamples.
